(** * PlaceObject2Tag: decoding and execution of SWF placement tags

    A shallow embedding of [server/swf/PlaceObject2Tag.cpp] (gnash):
    [readPlaceObject], [readPlaceActions], [readPlaceObject2], [read],
    [execute] and [loader].  The C++ methods mutate the tag object and the
    input stream; here both live in an explicit state that is threaded
    through a small state-and-error monad.  Every call made on the stream
    is recorded, with the value it returned, in a chronological trace, so
    that statements about the order of reads can be made about the code
    as it runs.

    [IF_VERBOSE_PARSE] blocks only print already decoded values and are
    left out. *)

From Stdlib Require Import ZArith List Bool Lia.
From Stdlib Require Import Strings.Byte.
Import ListNotations.
Open Scope Z_scope.

(** ** The input stream *)

Module Stream.

(** Modelled from the spec: class [stream] (stream.h) is not among the
    sources; this is the Bit/Byte Cursor of section 4.1.  The cursor
    views the bytes of one tag: [unread] holds the bytes from the
    current position up to the tag's declared end, so the end position
    is [position + length unread] and no operation can read past it.
    [bitbuf] holds the not yet consumed bits of a partially consumed
    byte, most significant first.  Multi-byte integers are
    little-endian, the byte order of the container format. *)
Record stream := mkStream {
  position : Z;
  unread : list byte;
  bitbuf : list bool
}.

Definition byte_val (b : byte) : Z := Z.of_N (Byte.to_N b).

Definition get_position (c : stream) : Z := position c.

Definition remaining (c : stream) : Z := Z.of_nat (length (unread c)).

Definition get_tag_end_position (c : stream) : Z :=
  position c + remaining c.

(** [align_to_byte]: discards any partially consumed byte. *)
Definition align (c : stream) : stream :=
  mkStream (position c) (unread c) [].

(** One bit, most significant bit of a byte first.  [None] stands for
    [TruncatedInput]. *)
Definition read_bit (c : stream) : option (bool * stream) :=
  match bitbuf c with
  | b :: bs => Some (b, mkStream (position c) (unread c) bs)
  | [] =>
      match unread c with
      | [] => None
      | x :: r =>
          Some (Z.testbit (byte_val x) 7,
                mkStream (position c + 1) r
                  (map (Z.testbit (byte_val x)) [6; 5; 4; 3; 2; 1; 0]))
      end
  end.

Fixpoint read_uint_from (bitcount : nat) (acc : Z) (c : stream)
  : option (Z * stream) :=
  match bitcount with
  | O => Some (acc, c)
  | S k =>
      match read_bit c with
      | None => None
      | Some (b, c') => read_uint_from k (2 * acc + Z.b2z b) c'
      end
  end.

(** [read_bits(n)], unsigned. *)
Definition read_uint (bitcount : nat) (c : stream) : option (Z * stream) :=
  read_uint_from bitcount 0 c.

(** Byte reads start at a byte boundary. *)
Definition read_u8 (c : stream) : option (Z * stream) :=
  match unread c with
  | x :: r => Some (byte_val x, mkStream (position c + 1) r [])
  | [] => None
  end.

Definition read_u16 (c : stream) : option (Z * stream) :=
  match unread c with
  | x0 :: x1 :: r =>
      Some (Z.lor (byte_val x0) (Z.shiftl (byte_val x1) 8),
            mkStream (position c + 2) r [])
  | _ => None
  end.

Definition read_u32 (c : stream) : option (Z * stream) :=
  match unread c with
  | x0 :: x1 :: x2 :: x3 :: r =>
      Some (Z.lor (Z.lor (byte_val x0) (Z.shiftl (byte_val x1) 8))
              (Z.lor (Z.shiftl (byte_val x2) 16)
                 (Z.shiftl (byte_val x3) 24)),
            mkStream (position c + 4) r [])
  | _ => None
  end.

(** Bytes up to a zero terminator; fails when the terminator is not
    found before the end. *)
Fixpoint cstring_split (l : list byte) : option (list byte * list byte) :=
  match l with
  | [] => None
  | x :: r =>
      if Byte.eqb x x00 then Some ([], r)
      else match cstring_split r with
           | None => None
           | Some (s, r') => Some (x :: s, r')
           end
  end.

Definition read_string (c : stream) : option (list byte * stream) :=
  match cstring_split (unread c) with
  | None => None
  | Some (s, r) =>
      Some (s, mkStream (position c + Z.of_nat (length s) + 1) r [])
  end.

(** [skip(n)]; the C++ method reports the failure through its [bool]
    result, and then leaves the cursor where it was. *)
Definition skip_bytes (num : Z) (c : stream) : bool * stream :=
  if (0 <=? num) && (num <=? remaining c)
  then (true, mkStream (position c + num)
                (skipn (Z.to_nat num) (unread c)) [])
  else (false, c).

End Stream.

Import Stream.

(** ** Data model *)

(** The three tag kinds [loader] accepts (namespace [SWF]). *)
Inductive tag_type := PLACEOBJECT | PLACEOBJECT2 | PLACEOBJECT3.

Inductive place_type := PLACE | MOVE | REPLACE | REMOVE.

(** The event kinds named in the [s_code_bits] table. *)
Inductive id_code :=
| LOAD | ENTER_FRAME | UNLOAD | MOUSE_MOVE | MOUSE_DOWN | MOUSE_UP
| KEY_DOWN | KEY_UP | DATA | INITIALIZE | PRESS | RELEASE
| RELEASE_OUTSIDE | ROLL_OVER | ROLL_OUT | DRAG_OVER | DRAG_OUT
| KEY_PRESS | CONSTRUCT.

Record event_id := mkEventId {
  m_id : id_code;
  m_key_code : Z
}.

Definition setKeyCode (key : Z) (e : event_id) : event_id :=
  mkEventId (m_id e) key.

Definition action_buffer := list byte.

(** [std::auto_ptr<T>]: an owning pointer that is either null or holds
    one object.  Copy-constructing an [auto_ptr] from another one, which
    is what passing it by value does, hands the object over and leaves
    the source null. *)
Definition auto_ptr (T : Type) := option T.

Definition auto_ptr_pass {T : Type} (p : auto_ptr T)
  : auto_ptr T * auto_ptr T :=
  (p, None).

(** [swf_event]: an event kind together with the action buffer its
    constructor was given.  swf_event.h is not among the sources; the
    constructor is called with an [event_id] and the local
    [std::auto_ptr<action_buffer>], and the destructor of the tag deletes
    each event on its own, so an event owns its buffer. *)
Record swf_event := mkSwfEvent {
  event : event_id;
  action : auto_ptr action_buffer
}.

Definition swf_event_setKeyCode (key : Z) (ev : swf_event) : swf_event :=
  mkSwfEvent (setKeyCode key (event ev)) (action ev).

Inductive DecodeError := TruncatedInput | OutOfFuel.

(** What the decoder hands to the logging sink ([log_swferror] under
    [IF_VERBOSE_MALFORMED_SWF], and the [log_debug] of [loader]). *)
Inductive log_msg :=
| ReservedFieldNotZero (reserved : Z)
| EventLengthPastTagEnd (event_length left : Z)
| ReadPastEventLength (event_length readlen : Z)
| SkippingExcessiveBytes (event_length readlen : Z)
| BytesSkippingFailed
| UnknownEventType (flags : Z)
| DepthOutOfStaticZone (depth : Z).

(** One entry per call made on the stream, with the value it returned. *)
Inductive op :=
| OpAlign
| OpBit (b : bool)
| OpUInt (bitcount : nat) (v : Z)
| OpU8 (v : Z)
| OpU16 (v : Z)
| OpU32 (v : Z)
| OpString (s : list byte)
| OpSkipBytes (num : Z) (ok : bool)
| OpMatrixRead
| OpCxformReadRGB
| OpCxformReadRGBA
| OpFilterRead
| OpActionRead (buf : action_buffer).

(** ** A state-and-error monad *)

Inductive result (S A : Type) :=
| Ok (a : A) (s : S)
| Failed (e : DecodeError).
Arguments Ok {S A} a s.
Arguments Failed {S A} e.

Definition state_m (S A : Type) := S -> result S A.

Definition ret {S A} (a : A) : state_m S A := fun s => Ok a s.

Definition bind {S A B} (m : state_m S A) (k : A -> state_m S B)
  : state_m S B :=
  fun s => match m s with
           | Ok a s' => k a s'
           | Failed e => Failed e
           end.

(** The state a run ends in; the given one when it fails. *)
Definition final_state {S A} (r : result S A) (s0 : S) : S :=
  match r with
  | Ok _ s => s
  | Failed _ => s0
  end.

Notation "x <- m ;; k" := (bind m (fun x => k))
  (at level 61, m at next level, right associativity).
Notation "m ;; k" := (bind m (fun _ => k))
  (at level 61, right associativity).

(** Code and constants the tag uses that live in other files: the
    readers of the matrix, colour transform, filter list and action
    buffer records, and the constants of [character] and [key].  Each
    reader works on the stream only; [None] is a read past the end. *)
Class Collaborators := {
  matrix : Type;
  cxform : Type;
  matrix_read : matrix -> stream -> option (matrix * stream);
  cxform_read_rgb : cxform -> stream -> option (cxform * stream);
  cxform_read_rgba : cxform -> stream -> option (cxform * stream);
  filter_factory_read : Z -> bool -> stream -> option (unit * stream);
  action_buffer_read : stream -> option (action_buffer * stream);
  staticDepthOffset : Z;
  noRatioValue : Z;
  noClipDepthValue : Z;
  key_INVALID : Z;
  key_CONTROL : Z
}.

Section PlaceObject2Tag.

Context `{Collab : Collaborators}.

Record PlaceObject2Tag := mkTag {
  m_tag_type : tag_type;
  m_name : option (list byte);
  m_ratio : Z;
  m_has_matrix : bool;
  m_has_cxform : bool;
  m_matrix : matrix;
  m_color_transform : cxform;
  m_character_id : Z;
  m_depth : Z;
  m_clip_depth : Z;
  m_place_type : place_type;
  all_event_flags : Z;
  m_event_handlers : list swf_event
}.

Definition set_m_tag_type v t :=
  mkTag v (m_name t) (m_ratio t) (m_has_matrix t) (m_has_cxform t)
    (m_matrix t) (m_color_transform t) (m_character_id t) (m_depth t)
    (m_clip_depth t) (m_place_type t) (all_event_flags t)
    (m_event_handlers t).
Definition set_m_name v t :=
  mkTag (m_tag_type t) v (m_ratio t) (m_has_matrix t) (m_has_cxform t)
    (m_matrix t) (m_color_transform t) (m_character_id t) (m_depth t)
    (m_clip_depth t) (m_place_type t) (all_event_flags t)
    (m_event_handlers t).
Definition set_m_ratio v t :=
  mkTag (m_tag_type t) (m_name t) v (m_has_matrix t) (m_has_cxform t)
    (m_matrix t) (m_color_transform t) (m_character_id t) (m_depth t)
    (m_clip_depth t) (m_place_type t) (all_event_flags t)
    (m_event_handlers t).
Definition set_m_has_matrix v t :=
  mkTag (m_tag_type t) (m_name t) (m_ratio t) v (m_has_cxform t)
    (m_matrix t) (m_color_transform t) (m_character_id t) (m_depth t)
    (m_clip_depth t) (m_place_type t) (all_event_flags t)
    (m_event_handlers t).
Definition set_m_has_cxform v t :=
  mkTag (m_tag_type t) (m_name t) (m_ratio t) (m_has_matrix t) v
    (m_matrix t) (m_color_transform t) (m_character_id t) (m_depth t)
    (m_clip_depth t) (m_place_type t) (all_event_flags t)
    (m_event_handlers t).
Definition set_m_matrix v t :=
  mkTag (m_tag_type t) (m_name t) (m_ratio t) (m_has_matrix t)
    (m_has_cxform t) v (m_color_transform t) (m_character_id t) (m_depth t)
    (m_clip_depth t) (m_place_type t) (all_event_flags t)
    (m_event_handlers t).
Definition set_m_color_transform v t :=
  mkTag (m_tag_type t) (m_name t) (m_ratio t) (m_has_matrix t)
    (m_has_cxform t) (m_matrix t) v (m_character_id t) (m_depth t)
    (m_clip_depth t) (m_place_type t) (all_event_flags t)
    (m_event_handlers t).
Definition set_m_character_id v t :=
  mkTag (m_tag_type t) (m_name t) (m_ratio t) (m_has_matrix t)
    (m_has_cxform t) (m_matrix t) (m_color_transform t) v (m_depth t)
    (m_clip_depth t) (m_place_type t) (all_event_flags t)
    (m_event_handlers t).
Definition set_m_depth v t :=
  mkTag (m_tag_type t) (m_name t) (m_ratio t) (m_has_matrix t)
    (m_has_cxform t) (m_matrix t) (m_color_transform t) (m_character_id t)
    v (m_clip_depth t) (m_place_type t) (all_event_flags t)
    (m_event_handlers t).
Definition set_m_clip_depth v t :=
  mkTag (m_tag_type t) (m_name t) (m_ratio t) (m_has_matrix t)
    (m_has_cxform t) (m_matrix t) (m_color_transform t) (m_character_id t)
    (m_depth t) v (m_place_type t) (all_event_flags t)
    (m_event_handlers t).
Definition set_m_place_type v t :=
  mkTag (m_tag_type t) (m_name t) (m_ratio t) (m_has_matrix t)
    (m_has_cxform t) (m_matrix t) (m_color_transform t) (m_character_id t)
    (m_depth t) (m_clip_depth t) v (all_event_flags t)
    (m_event_handlers t).
Definition set_all_event_flags v t :=
  mkTag (m_tag_type t) (m_name t) (m_ratio t) (m_has_matrix t)
    (m_has_cxform t) (m_matrix t) (m_color_transform t) (m_character_id t)
    (m_depth t) (m_clip_depth t) (m_place_type t) v
    (m_event_handlers t).
Definition set_m_event_handlers v t :=
  mkTag (m_tag_type t) (m_name t) (m_ratio t) (m_has_matrix t)
    (m_has_cxform t) (m_matrix t) (m_color_transform t) (m_character_id t)
    (m_depth t) (m_clip_depth t) (m_place_type t) (all_event_flags t) v.

(** ** The decoding monad *)

(** The tag under construction ([this]), the stream ([inp]), the calls
    made on the stream so far and the messages logged so far. *)
Record st := mkSt {
  this : PlaceObject2Tag;
  inp : stream;
  trace : list op;
  logs : list log_msg
}.

Definition M (A : Type) := state_m st A.

Definition modify_this (f : PlaceObject2Tag -> PlaceObject2Tag) : M unit :=
  fun s => Ok tt (mkSt (f (this s)) (inp s) (trace s) (logs s)).

Definition get_this {A} (f : PlaceObject2Tag -> A) : M A :=
  fun s => Ok (f (this s)) s.

Definition log_swferror (m : log_msg) : M unit :=
  fun s => Ok tt (mkSt (this s) (inp s) (trace s) (logs s ++ [m])).

(** A call on the stream that may run past the end. *)
Definition in_call {A} (rd : stream -> option (A * stream)) (o : A -> op)
  : M A :=
  fun s => match rd (inp s) with
           | Some (a, c) =>
               Ok a (mkSt (this s) c (trace s ++ [o a]) (logs s))
           | None => Failed TruncatedInput
           end.

Definition in_align : M unit :=
  in_call (fun c => Some (tt, align c)) (fun _ => OpAlign).
Definition in_read_bit : M bool := in_call read_bit OpBit.
Definition in_read_uint (bitcount : nat) : M Z :=
  in_call (read_uint bitcount) (OpUInt bitcount).
Definition in_read_u8 : M Z := in_call read_u8 OpU8.
Definition in_read_u16 : M Z := in_call read_u16 OpU16.
Definition in_read_u32 : M Z := in_call read_u32 OpU32.
Definition in_read_string : M (list byte) := in_call read_string OpString.
Definition in_skip_bytes (num : Z) : M bool :=
  in_call (fun c => Some (skip_bytes num c)) (OpSkipBytes num).

(** Position queries leave the stream as it is. *)
Definition in_get_position : M Z := fun s => Ok (get_position (inp s)) s.
Definition in_get_tag_end_position : M Z :=
  fun s => Ok (get_tag_end_position (inp s)) s.

(** [m_matrix.read(in)] and the two readers of [m_color_transform]. *)
Definition m_matrix_read : M unit :=
  fun s => match matrix_read (m_matrix (this s)) (inp s) with
           | Some (m, c) =>
               Ok tt (mkSt (set_m_matrix m (this s)) c
                        (trace s ++ [OpMatrixRead]) (logs s))
           | None => Failed TruncatedInput
           end.

Definition m_color_transform_read_rgb : M unit :=
  fun s => match cxform_read_rgb (m_color_transform (this s)) (inp s) with
           | Some (x, c) =>
               Ok tt (mkSt (set_m_color_transform x (this s)) c
                        (trace s ++ [OpCxformReadRGB]) (logs s))
           | None => Failed TruncatedInput
           end.

Definition m_color_transform_read_rgba : M unit :=
  fun s => match cxform_read_rgba (m_color_transform (this s)) (inp s) with
           | Some (x, c) =>
               Ok tt (mkSt (set_m_color_transform x (this s)) c
                        (trace s ++ [OpCxformReadRGBA]) (logs s))
           | None => Failed TruncatedInput
           end.

(** [filter_factory::read(in, movie_version, true, &v)] with a local
    [Filters v]: the stream advances, the filters go nowhere. *)
Definition filter_factory_read_in (movie_version : Z) : M unit :=
  in_call (filter_factory_read movie_version true) (fun _ => OpFilterRead).

(** [new action_buffer] followed by [action->read(in)]. *)
Definition action_read : M action_buffer :=
  in_call action_buffer_read OpActionRead.

(** Unsigned wrap-around. *)
Definition u8 (z : Z) : Z := z mod 2 ^ 8.
Definition u32 (z : Z) : Z := z mod 2 ^ 32.

(** ** [PlaceObject2Tag::readPlaceObject] *)

Definition readPlaceObject : M unit :=
  character_id <- in_read_u16 ;;
  modify_this (set_m_character_id character_id) ;;
  depth <- in_read_u16 ;;
  modify_this (set_m_depth (depth + staticDepthOffset)) ;;
  m_matrix_read ;;
  pos <- in_get_position ;;
  tag_end <- in_get_tag_end_position ;;
  if pos <? tag_end
  then m_color_transform_read_rgb
  else ret tt.

(** ** [PlaceObject2Tag::readPlaceActions] *)

Definition total_known_events : nat := 19.

(** [event_id::LOAD] and the like convert to an [event_id] whose key
    code is the default [key::INVALID]. *)
Definition ev (c : id_code) : event_id := mkEventId c key_INVALID.

Definition s_code_bits : list event_id :=
  [ ev LOAD; ev ENTER_FRAME; ev UNLOAD; ev MOUSE_MOVE;
    ev MOUSE_DOWN; ev MOUSE_UP; ev KEY_DOWN; ev KEY_UP;
    ev DATA; ev INITIALIZE; ev PRESS; ev RELEASE;
    ev RELEASE_OUTSIDE; ev ROLL_OVER; ev ROLL_OUT; ev DRAG_OVER;
    ev DRAG_OUT; mkEventId KEY_PRESS key_CONTROL; ev CONSTRUCT ].

Definition push_back_handler (e : swf_event) : M unit :=
  modify_this (fun t => set_m_event_handlers (m_event_handlers t ++ [e]) t).

(** The loop [for (int i = 0, mask = 1; i < total_known_events; i++,
    mask <<= 1)]; [todo] counts the iterations left.  [act] is the local
    [std::auto_ptr<action_buffer> action]: it is passed by value to the
    [swf_event] constructor, so the first event built from it takes the
    buffer and the variable is null from then on. *)
Fixpoint make_events (todo : nat) (i mask flags ch : Z)
    (act : auto_ptr action_buffer) : M unit :=
  match todo with
  | O => ret tt
  | S todo' =>
      if negb (Z.land flags mask =? 0)
      then
        let '(given, act') := auto_ptr_pass act in
        let e0 := mkSwfEvent (nth (Z.to_nat i) s_code_bits (ev LOAD)) given in
        let e := if i =? 17 then swf_event_setKeyCode ch e0 else e0 in
        push_back_handler e ;;
        make_events todo' (i + 1) (Z.shiftl mask 1) flags ch act'
      else
        make_events todo' (i + 1) (Z.shiftl mask 1) flags ch act
  end.

Inductive loop_exit := Continue | Break.

(** One turn of the [for (;;)] loop that reads the [swf_event]s.  The
    position never lies behind the end of the tag, so the unsigned
    difference [get_tag_end_position() - get_position()] does not wrap;
    [event_length--] wraps at 32 bits. *)
Definition read_swf_event (movie_version : Z) : M loop_exit :=
  in_align ;;
  flags <- (if movie_version >=? 6 then in_read_u32 else in_read_u16) ;;
  if flags =? 0 then ret Break
  else
    event_length <- in_read_u32 ;;
    tag_end <- in_get_tag_end_position ;;
    pos <- in_get_position ;;
    if tag_end - pos <? event_length
    then
      log_swferror (EventLengthPastTagEnd event_length (tag_end - pos)) ;;
      ret Break
    else
      key_len <-
        (if negb (Z.land flags (Z.shiftl 1 17) =? 0)
         then ch <- in_read_u8 ;; ret (ch, u32 (event_length - 1))
         else ret (u8 key_INVALID, event_length)) ;;
      let '(ch, event_length) := key_len in
      act <- action_read ;;
      let readlen := Z.of_nat (length act) in
      if readlen >? event_length
      then
        log_swferror (ReadPastEventLength event_length readlen) ;;
        ret Break
      else
        skipped <-
          (if readlen <? event_length
           then
             log_swferror (SkippingExcessiveBytes event_length readlen) ;;
             ok <- in_skip_bytes (event_length - readlen) ;;
             if negb ok
             then log_swferror BytesSkippingFailed ;; ret false
             else ret true
           else ret true) ;;
        if negb skipped then ret Break
        else
          (if negb (Z.shiftr flags (Z.of_nat total_known_events) =? 0)
           then log_swferror (UnknownEventType flags)
           else ret tt) ;;
          make_events total_known_events 0 1 flags ch (Some act) ;;
          ret Continue.

(** The loop itself; [fuel] bounds the number of turns. *)
Fixpoint read_swf_events (fuel : nat) (movie_version : Z) : M unit :=
  match fuel with
  | O => fun _ => Failed OutOfFuel
  | S fuel' =>
      e <- read_swf_event movie_version ;;
      match e with
      | Break => ret tt
      | Continue => read_swf_events fuel' movie_version
      end
  end.

Definition readPlaceActions (fuel : nat) (movie_version : Z) : M unit :=
  reserved <- in_read_u16 ;;
  (if negb (reserved =? 0)
   then log_swferror (ReservedFieldNotZero reserved)
   else ret tt) ;;
  flags <- (if movie_version >=? 6 then in_read_u32 else in_read_u16) ;;
  modify_this (set_all_event_flags flags) ;;
  read_swf_events fuel movie_version.

(** ** [PlaceObject2Tag::readPlaceObject2] *)

Definition when (b : bool) (m : M unit) : M unit :=
  if b then m else ret tt.

(** The chain of [if]/[else if] that sets [m_place_type]. *)
Definition derive_place_type (has_char flag_move : bool)
    (t : PlaceObject2Tag) : PlaceObject2Tag :=
  if Bool.eqb has_char true && Bool.eqb flag_move true
  then set_m_place_type REPLACE t
  else if Bool.eqb has_char false && Bool.eqb flag_move true
  then set_m_place_type MOVE t
  else if Bool.eqb has_char true && Bool.eqb flag_move false
  then set_m_place_type PLACE t
  else if Bool.eqb has_char false && Bool.eqb flag_move false
  then set_m_place_type REMOVE t
  else t.

Definition readPlaceObject2 (fuel : nat) (movie_version : Z)
    (place_2 : bool) : M unit :=
  in_align ;;
  has_actions <- in_read_bit ;;
  has_clip_bracket <- in_read_bit ;;
  has_name <- in_read_bit ;;
  has_ratio <- in_read_bit ;;
  has_cxform <- in_read_bit ;;
  has_matrix <- in_read_bit ;;
  has_char <- in_read_bit ;;
  flag_move <- in_read_bit ;;
  v8 <-
    (if negb place_2 && (movie_version >=? 8)
     then
       in_read_uint 5 ;;
       has_bitmap_caching <- in_read_bit ;;
       has_blend_mode <- in_read_bit ;;
       has_filters <- in_read_bit ;;
       ret (has_bitmap_caching, has_blend_mode, has_filters)
     else ret (false, false, false)) ;;
  let '(has_bitmap_caching, has_blend_mode, has_filters) := v8 in
  depth <- in_read_u16 ;;
  modify_this (set_m_depth (depth + staticDepthOffset)) ;;
  when has_char
    (character_id <- in_read_u16 ;;
     modify_this (set_m_character_id character_id)) ;;
  when has_matrix
    (modify_this (set_m_has_matrix true) ;; m_matrix_read) ;;
  when has_cxform
    (modify_this (set_m_has_cxform true) ;; m_color_transform_read_rgba) ;;
  (if has_ratio
   then ratio <- in_read_u16 ;; modify_this (set_m_ratio ratio)
   else modify_this (set_m_ratio noRatioValue)) ;;
  when has_name
    (name <- in_read_string ;; modify_this (set_m_name (Some name))) ;;
  (if has_clip_bracket
   then
     clip_depth <- in_read_u16 ;;
     modify_this (set_m_clip_depth (clip_depth + staticDepthOffset))
   else modify_this (set_m_clip_depth noClipDepthValue)) ;;
  when has_filters (filter_factory_read_in movie_version) ;;
  when has_blend_mode (in_read_u8 ;; ret tt) ;;
  when has_bitmap_caching (in_read_u8 ;; ret tt) ;;
  when has_actions (readPlaceActions fuel movie_version) ;;
  modify_this (derive_place_type has_char flag_move).

(** ** [PlaceObject2Tag::read] *)

Definition read (fuel : nat) (tag : tag_type) (movie_version : Z) : M unit :=
  modify_this (set_m_tag_type tag) ;;
  match tag with
  | PLACEOBJECT => readPlaceObject
  | _ =>
      readPlaceObject2 fuel movie_version
        (match tag with PLACEOBJECT3 => false | _ => true end)
  end.

(** ** [PlaceObject2Tag::execute] *)

(** The call [execute] makes on the [sprite_instance] it is given.  A
    pointer argument that may be [NULL] is an [option]. *)
Inductive sprite_call :=
| add_display_object (character_id : Z) (name : option (list byte))
    (event_handlers : list swf_event) (depth : Z)
    (color_transform : cxform) (mat : matrix) (ratio clip_depth : Z)
| move_display_object (depth : Z) (color_xform : option cxform)
    (mat : option matrix) (ratio clip_depth : Z)
| replace_display_object (character_id : Z) (name : option (list byte))
    (depth : Z) (color_xform : option cxform) (mat : option matrix)
    (ratio clip_depth : Z)
| remove_display_object (depth : Z) (id : Z).

Definition execute (t : PlaceObject2Tag) : sprite_call :=
  match m_place_type t with
  | PLACE =>
      add_display_object (m_character_id t) (m_name t) (m_event_handlers t)
        (m_depth t) (m_color_transform t) (m_matrix t) (m_ratio t)
        (m_clip_depth t)
  | MOVE =>
      move_display_object (m_depth t)
        (if m_has_cxform t then Some (m_color_transform t) else None)
        (if m_has_matrix t then Some (m_matrix t) else None)
        (m_ratio t) (m_clip_depth t)
  | REPLACE =>
      replace_display_object (m_character_id t) (m_name t) (m_depth t)
        (if m_has_cxform t then Some (m_color_transform t) else None)
        (if m_has_matrix t then Some (m_matrix t) else None)
        (m_ratio t) (m_clip_depth t)
  | REMOVE => remove_display_object (m_depth t) 0
  end.

(** ** [PlaceObject2Tag::loader] *)

(** The calls [loader] makes on the [movie_definition]. *)
Inductive movie_call :=
| add_execute_tag (ch : PlaceObject2Tag)
| addTimelineDepth (depth : Z).

(** [loader] runs on a state whose [this] is the tag just built by
    [new PlaceObject2Tag]; [movie_version] is [m->get_version()].
    The result lists the calls made on [m], in order. *)
Definition loader (fuel : nat) (tag : tag_type) (movie_version : Z)
  : M (list movie_call) :=
  read fuel tag movie_version ;;
  ch <- get_this (fun t => t) ;;
  let depth := m_depth ch in
  if (depth <? 0) && (depth >=? staticDepthOffset)
  then ret [add_execute_tag ch; addTimelineDepth depth]
  else
    log_swferror (DepthOutOfStaticZone depth) ;;
    ret [add_execute_tag ch].

(** ** The display list *)

(** A live instance as the display list holds it. *)
Record instance := mkInstance {
  inst_character_id : Z;
  inst_name : option (list byte);
  inst_event_handlers : list swf_event;
  inst_cxform : cxform;
  inst_matrix : matrix;
  inst_ratio : Z;
  inst_clip_depth : Z
}.

Definition DisplayList := Z -> option instance.

(** Modelled from the spec: [sprite_instance::move_display_object] and
    the display list behind it are not among the sources; this is the
    Move of section 4.4.  An instance must exist at the depth, otherwise
    nothing happens; of matrix, colour transform, ratio and clip depth
    only those present are written, where a null pointer and the two
    sentinels mean absent. *)
Definition display_list_move (dl : DisplayList) (depth : Z)
    (color_xform : option cxform) (mat : option matrix)
    (ratio clip_depth : Z) : DisplayList :=
  match dl depth with
  | None => dl
  | Some ch =>
      let ch' :=
        mkInstance (inst_character_id ch) (inst_name ch)
          (inst_event_handlers ch)
          (match color_xform with Some x => x | None => inst_cxform ch end)
          (match mat with Some m => m | None => inst_matrix ch end)
          (if ratio =? noRatioValue then inst_ratio ch else ratio)
          (if clip_depth =? noClipDepthValue
           then inst_clip_depth ch else clip_depth) in
      fun d => if d =? depth then Some ch' else dl d
  end.

(** ** Closed forms used in the statements *)

(** The events [make_events] appends, as a list. *)
Fixpoint events_for (todo : nat) (i mask flags ch : Z)
    (act : auto_ptr action_buffer) : list swf_event :=
  match todo with
  | O => []
  | S todo' =>
      if negb (Z.land flags mask =? 0)
      then
        let e0 := mkSwfEvent (nth (Z.to_nat i) s_code_bits (ev LOAD)) act in
        (if i =? 17 then swf_event_setKeyCode ch e0 else e0)
          :: events_for todo' (i + 1) (Z.shiftl mask 1) flags ch None
      else events_for todo' (i + 1) (Z.shiftl mask 1) flags ch act
  end.

(** The known bit positions set in a flag word, lowest first. *)
Definition known_bits (flags : Z) : list Z :=
  filter (Z.testbit flags) (map Z.of_nat (seq 0 total_known_events)).

(** The event kind of a bit position, with the key code on position 17. *)
Definition event_of_bit (ch i : Z) : event_id :=
  let e := nth (Z.to_nat i) s_code_bits (ev LOAD) in
  if i =? 17 then setKeyCode ch e else e.

(** The first event of a list gets the buffer, the others a null
    pointer. *)
Definition first_owns (act : auto_ptr action_buffer) (l : list event_id)
  : list swf_event :=
  match l with
  | [] => []
  | e :: l' => mkSwfEvent e act :: map (fun e' => mkSwfEvent e' None) l'
  end.

(** A read that happens only under its flag. *)
Definition opt_op (b : bool) (o : op) : list op :=
  if b then [o] else [].

(** What [readPlaceObject2] decodes before the event table: the flags
    and the values of the fields read under them. *)
Record extended_fields := mkFields {
  f_has_actions : bool;
  f_has_clip_bracket : bool;
  f_has_name : bool;
  f_has_ratio : bool;
  f_has_cxform : bool;
  f_has_matrix : bool;
  f_has_char : bool;
  f_flag_move : bool;
  f_reserved : Z;
  f_has_bitmap_caching : bool;
  f_has_blend_mode : bool;
  f_has_filters : bool;
  f_depth : Z;
  f_character_id : Z;
  f_ratio : Z;
  f_name : list byte;
  f_clip_depth : Z;
  f_blend_mode : Z;
  f_bitmask : Z
}.

(** The order of reads of section 4.2 for the extended variants:
    eight flags, on PlaceObject3 from version 8 on ([v8]) five reserved
    bits and three more flags, the depth, then each field under its
    flag. *)
Definition extended_reads (v8 : bool) (d : extended_fields) : list op :=
  [OpAlign;
   OpBit (f_has_actions d); OpBit (f_has_clip_bracket d);
   OpBit (f_has_name d); OpBit (f_has_ratio d);
   OpBit (f_has_cxform d); OpBit (f_has_matrix d);
   OpBit (f_has_char d); OpBit (f_flag_move d)]
  ++ (if v8
      then [OpUInt 5 (f_reserved d); OpBit (f_has_bitmap_caching d);
            OpBit (f_has_blend_mode d); OpBit (f_has_filters d)]
      else [])
  ++ [OpU16 (f_depth d)]
  ++ opt_op (f_has_char d) (OpU16 (f_character_id d))
  ++ opt_op (f_has_matrix d) OpMatrixRead
  ++ opt_op (f_has_cxform d) OpCxformReadRGBA
  ++ opt_op (f_has_ratio d) (OpU16 (f_ratio d))
  ++ opt_op (f_has_name d) (OpString (f_name d))
  ++ opt_op (f_has_clip_bracket d) (OpU16 (f_clip_depth d))
  ++ opt_op (f_has_filters d) OpFilterRead
  ++ opt_op (f_has_blend_mode d) (OpU8 (f_blend_mode d))
  ++ opt_op (f_has_bitmap_caching d) (OpU8 (f_bitmask d)).

(** The tag after these reads; [m] and [x] are what the matrix and
    colour transform readers returned. *)
Definition extended_tag (d : extended_fields) (m : matrix) (x : cxform)
    (t : PlaceObject2Tag) : PlaceObject2Tag :=
  let t := set_m_depth (f_depth d + staticDepthOffset) t in
  let t := if f_has_char d
           then set_m_character_id (f_character_id d) t else t in
  let t := if f_has_matrix d
           then set_m_matrix m (set_m_has_matrix true t) else t in
  let t := if f_has_cxform d
           then set_m_color_transform x (set_m_has_cxform true t) else t in
  let t := set_m_ratio (if f_has_ratio d then f_ratio d else noRatioValue)
             t in
  let t := if f_has_name d then set_m_name (Some (f_name d)) t else t in
  set_m_clip_depth
    (if f_has_clip_bracket d
     then f_clip_depth d + staticDepthOffset else noClipDepthValue) t.

(** The PlaceType of the table in section 3. *)
Definition place_type_table (has_char flag_move : bool) : place_type :=
  match has_char, flag_move with
  | true, false => PLACE
  | true, true => REPLACE
  | false, true => MOVE
  | false, false => REMOVE
  end.

(** A tag without what the event table writes: [all_event_flags] and
    [m_event_handlers]. *)
Definition placement_part (t : PlaceObject2Tag) : PlaceObject2Tag :=
  set_m_event_handlers [] (set_all_event_flags 0 t).

(** A program that, when it succeeds, has only added calls to the trace
    and has left the placement part of the tag alone. *)
Definition event_table_run {A} (m : M A) : Prop :=
  forall s a s',
    m s = Ok a s' ->
    (exists tl, trace s' = trace s ++ tl) /\
    placement_part (this s') = placement_part (this s).

(** A program whose only failure is a read past the end of the tag. *)
Definition only_truncates {A} (m : M A) : Prop :=
  forall s e, m s = Failed e -> e = TruncatedInput.

(** A program that, when it succeeds, has changed the tag at most by
    adding events at the end of [m_event_handlers]. *)
Definition appends_events {A} (m : M A) : Prop :=
  forall s a s',
    m s = Ok a s' ->
    exists l,
      this s' =
      set_m_event_handlers (m_event_handlers (this s) ++ l) (this s).

(** [readPlaceObject2] in two parts.  The first is everything before
    the event table: the flags, the depth and the fields under their
    flags; it hands on the three flags the rest needs. *)
Definition readPlaceObject2_fields (movie_version : Z) (place_2 : bool)
  : M (bool * bool * bool) :=
  in_align ;;
  has_actions <- in_read_bit ;;
  has_clip_bracket <- in_read_bit ;;
  has_name <- in_read_bit ;;
  has_ratio <- in_read_bit ;;
  has_cxform <- in_read_bit ;;
  has_matrix <- in_read_bit ;;
  has_char <- in_read_bit ;;
  flag_move <- in_read_bit ;;
  v8 <-
    (if negb place_2 && (movie_version >=? 8)
     then
       in_read_uint 5 ;;
       has_bitmap_caching <- in_read_bit ;;
       has_blend_mode <- in_read_bit ;;
       has_filters <- in_read_bit ;;
       ret (has_bitmap_caching, has_blend_mode, has_filters)
     else ret (false, false, false)) ;;
  let '(has_bitmap_caching, has_blend_mode, has_filters) := v8 in
  depth <- in_read_u16 ;;
  modify_this (set_m_depth (depth + staticDepthOffset)) ;;
  when has_char
    (character_id <- in_read_u16 ;;
     modify_this (set_m_character_id character_id)) ;;
  when has_matrix
    (modify_this (set_m_has_matrix true) ;; m_matrix_read) ;;
  when has_cxform
    (modify_this (set_m_has_cxform true) ;; m_color_transform_read_rgba) ;;
  (if has_ratio
   then ratio <- in_read_u16 ;; modify_this (set_m_ratio ratio)
   else modify_this (set_m_ratio noRatioValue)) ;;
  when has_name
    (name <- in_read_string ;; modify_this (set_m_name (Some name))) ;;
  (if has_clip_bracket
   then
     clip_depth <- in_read_u16 ;;
     modify_this (set_m_clip_depth (clip_depth + staticDepthOffset))
   else modify_this (set_m_clip_depth noClipDepthValue)) ;;
  when has_filters (filter_factory_read_in movie_version) ;;
  when has_blend_mode (in_read_u8 ;; ret tt) ;;
  when has_bitmap_caching (in_read_u8 ;; ret tt) ;;
  ret (has_actions, has_char, flag_move).

(** The second part: the event table under has-actions, then the
    PlaceType. *)
Definition readPlaceObject2_rest (fuel : nat) (movie_version : Z)
    (flags : bool * bool * bool) : M unit :=
  let '(has_actions, has_char, flag_move) := flags in
  when has_actions (readPlaceActions fuel movie_version) ;;
  modify_this (derive_place_type has_char flag_move).

(** The flag word is 32 bits wide from version 6 on, 16 bits before. *)
Definition flags_word_op (v flags : Z) : op :=
  if v >=? 6 then OpU32 flags else OpU16 flags.

(** Bit 17 of a flag word: the key-press event. *)
Definition has_key_press (flags : Z) : bool :=
  negb (Z.land flags (Z.shiftl 1 17) =? 0).

(** What is left of a declared event length for the action bytes, once
    the key code byte is taken off. *)
Definition event_budget (flags event_length : Z) : Z :=
  if has_key_press flags then u32 (event_length - 1) else event_length.

(** Bits set above the known positions. *)
Definition has_unknown_bits (flags : Z) : bool :=
  negb (Z.shiftr flags (Z.of_nat total_known_events) =? 0).

(** The reads before the first entry of the event table. *)
Definition readPlaceActions_header (movie_version : Z) : M unit :=
  reserved <- in_read_u16 ;;
  (if negb (reserved =? 0)
   then log_swferror (ReservedFieldNotZero reserved)
   else ret tt) ;;
  flags <- (if movie_version >=? 6 then in_read_u32 else in_read_u16) ;;
  modify_this (set_all_event_flags flags).

(** [entries_read v k s s']: starting in [s], the loop reads [k] entries
    in full, each adding its events, and is then in [s']. *)
Inductive entries_read (movie_version : Z) : nat -> st -> st -> Prop :=
| entries_none s : entries_read movie_version O s s
| entries_more k s s1 s' :
    read_swf_event movie_version s = Ok Continue s1 ->
    entries_read movie_version k s1 s' ->
    entries_read movie_version (S k) s s'.

End PlaceObject2Tag.

Arguments PlaceObject2Tag {Collab}.
Arguments st {Collab}.
Arguments instance {Collab}.
Arguments sprite_call {Collab}.
Arguments movie_call {Collab}.
Arguments DisplayList {Collab}.

(** ** Stand-in collaborators

    Concrete readers and constants, used to run the decoder on concrete
    bytes.  They follow the record layouts of the container format; the
    theorems below hold for every choice of collaborators. *)

Module Sample.

Definition obind {A B} (m : option (A * stream))
    (k : A -> stream -> option (B * stream)) : option (B * stream) :=
  match m with
  | Some (a, c) => k a c
  | None => None
  end.

Definition take_bytes (n : nat) (c : stream)
  : option (list byte * stream) :=
  if (n <=? length (unread c))%nat
  then Some (firstn n (unread c),
             mkStream (position c + Z.of_nat n) (skipn n (unread c)) [])
  else None.

(** MATRIX: optional scale pair, optional rotate pair, translate pair,
    each group led by a 5-bit field width.  Fields are kept raw. *)
Definition read_matrix (_ : list Z) (c : stream)
  : option (list Z * stream) :=
  let pair (c : stream) :=
    obind (read_uint 5 c) (fun n c =>
    obind (read_uint (Z.to_nat n) c) (fun a c =>
    obind (read_uint (Z.to_nat n) c) (fun b c => Some ([a; b], c)))) in
  let opt_pair (c : stream) :=
    obind (read_bit c) (fun has c =>
      if has then pair c else Some ([], c)) in
  obind (opt_pair (align c)) (fun sc c =>
  obind (opt_pair c) (fun ro c =>
  obind (pair c) (fun tr c => Some (sc ++ ro ++ tr, c)))).

(** CXFORM: two presence bits, a 4-bit field width, then the multiply
    and add terms, [chans] channels each. *)
Definition read_cxform (chans : nat) (_ : list Z) (c : stream)
  : option (list Z * stream) :=
  let fix terms (k : nat) (n : nat) (c : stream) :=
    match k with
    | O => Some ([], c)
    | S k' =>
        obind (read_uint n c) (fun a c =>
        obind (terms k' n c) (fun l c => Some (a :: l, c)))
    end in
  obind (read_bit (align c)) (fun has_add c =>
  obind (read_bit c) (fun has_mult c =>
  obind (read_uint 4 c) (fun n c =>
  obind (if has_mult then terms chans (Z.to_nat n) c else Some ([], c))
    (fun mu c =>
  obind (if has_add then terms chans (Z.to_nat n) c else Some ([], c))
    (fun ad c => Some (mu ++ ad, c)))))).

(** Filter list: a count byte; this stand-in accepts the empty list
    only. *)
Definition read_filters (_ : Z) (_ : bool) (c : stream)
  : option (unit * stream) :=
  obind (read_u8 c) (fun n c => if n =? 0 then Some (tt, c) else None).

(** Action records: an opcode byte, followed when its top bit is set
    by a 16-bit length and that many bytes; opcode 0 ends the list. *)
Fixpoint action_records (fuel : nat) (acc : list byte) (c : stream)
  : option (action_buffer * stream) :=
  match fuel with
  | O => None
  | S fuel' =>
      match unread c with
      | [] => None
      | x :: r =>
          let c1 := mkStream (position c + 1) r [] in
          if Z.testbit (byte_val x) 7
          then
            obind (read_u16 c1) (fun len _ =>
            obind (take_bytes (2 + Z.to_nat len) c1) (fun body c2 =>
              action_records fuel' (acc ++ x :: body) c2))
          else if Byte.eqb x x00
          then Some (acc ++ [x], c1)
          else action_records fuel' (acc ++ [x]) c1
      end
  end.

Definition read_actions (c : stream)
  : option (action_buffer * stream) :=
  action_records (length (unread c)) [] (align c).

Definition collaborators : Collaborators := {|
  matrix := list Z;
  cxform := list Z;
  matrix_read := read_matrix;
  cxform_read_rgb := read_cxform 3;
  cxform_read_rgba := read_cxform 4;
  filter_factory_read := read_filters;
  action_buffer_read := read_actions;
  staticDepthOffset := -16384;
  noRatioValue := -1;
  noClipDepthValue := -1000000;
  key_INVALID := 0;
  key_CONTROL := 17
|}.

(** A tag as its constructor leaves it. *)
Definition new_tag : @PlaceObject2Tag collaborators :=
  @mkTag collaborators PLACEOBJECT None 0 false false [] [] 0 0 0 PLACE 0 [].

Definition start (bytes : list byte) : @st collaborators :=
  @mkSt collaborators new_tag (mkStream 0 bytes []) [] [].

(** Event tables for format version 7: the header, one entry for
    mouse-down and mouse-up in full (three declared bytes, two of them
    action bytes), then a last entry. *)
Definition table_start : list byte :=
  [x00; x00; x30; x00; x00; x00;
   x30; x00; x00; x00; x03; x00; x00; x00; x07; x00; x09].

(** Last entry: key press, 255 declared bytes, 2 bytes left. *)
Definition table_past_end : list byte :=
  table_start ++ [x00; x00; x02; x00; xff; x00; x00; x00; x41; x00].

(** Last entry: load, 1 declared byte, 2 action bytes. *)
Definition table_overrun : list byte :=
  table_start
    ++ [x01; x00; x00; x00; x01; x00; x00; x00; x07; x00;
        x00; x00; x00; x00].

(** A single entry: key press, 5 declared bytes (key code [x41], two
    action bytes, two more bytes), then the end of the table. *)
Definition entry_key_press : list byte :=
  [x00; x00; x02; x00; x05; x00; x00; x00; x41; x07; x00; x09; x09;
   x00; x00; x00; x00].

(** A PlaceObject2 tag: flags has-matrix and move, depth 5, an empty
    matrix record. *)
Definition move_with_matrix : list byte := [x05; x05; x00; x00].

(** A PlaceObject3 tag for version 8: every flag but has-actions and
    move, depth 3, character 2, empty matrix and colour transform,
    ratio 9, name [ab], clip depth 4, no filters, blend mode 1,
    bitmap caching 1. *)
Definition place3_all_fields : list byte :=
  [x7e; x07; x03; x00; x02; x00; x00; x00; x09; x00;
   x61; x62; x00; x04; x00; x00; x01; x01].

(** A legacy tag: character 2, depth 5, an empty matrix record, and
    nothing behind it. *)
Definition legacy_no_cxform : list byte := [x02; x00; x05; x00; x00].

(** The states these tags are read from, and the states reached. *)
Definition move_start := start move_with_matrix.
Definition move_end := Eval vm_compute in
  final_state (readPlaceObject2 1 7 true move_start) move_start.

Definition move_read_end := Eval vm_compute in
  final_state (read 1 PLACEOBJECT2 7 move_start) move_start.

Definition place3_start := start place3_all_fields.
Definition place3_end := Eval vm_compute in
  final_state (read 1 PLACEOBJECT3 8 place3_start) place3_start.

Definition legacy_start := start legacy_no_cxform.
Definition legacy_end := Eval vm_compute in
  final_state (loader 1 PLACEOBJECT 7 legacy_start) legacy_start.

Definition legacy_calls := Eval vm_compute in
  match loader 1 PLACEOBJECT 7 legacy_start with
  | Ok calls _ => calls
  | Failed _ => []
  end.

Definition key_press_start := start entry_key_press.
Definition key_press_end := Eval vm_compute in
  final_state (read_swf_event 7 key_press_start) key_press_start.

Definition past_end_start := start table_past_end.
Definition past_end_header := Eval vm_compute in
  final_state (readPlaceActions_header 7 past_end_start) past_end_start.
Definition past_end_entry := Eval vm_compute in
  final_state (read_swf_event 7 past_end_header) past_end_header.

Definition overrun_start := start table_overrun.
Definition overrun_header := Eval vm_compute in
  final_state (readPlaceActions_header 7 overrun_start) overrun_start.
Definition overrun_entry := Eval vm_compute in
  final_state (read_swf_event 7 overrun_header) overrun_header.

(** The first table again, closed by a zero flag word. *)
Definition table_complete : list byte :=
  table_start ++ [x00; x00; x00; x00].

(** A PlaceObject2 tag for version 7: flags has-actions and
    has-character, depth 5, character 2, then that table. *)
Definition place2_with_events : list byte :=
  [x82; x05; x00; x02; x00] ++ table_complete.

Definition events_start := start place2_with_events.
Definition events_fields := Eval vm_compute in
  final_state (readPlaceObject2_fields 7 true
                 (mkSt (set_m_tag_type PLACEOBJECT2 new_tag)
                    (inp events_start) [] []))
    events_start.
Definition events_end := Eval vm_compute in
  final_state (read 2 PLACEOBJECT2 7 events_start) events_start.

Definition complete_start := start table_complete.
Definition complete_header := Eval vm_compute in
  final_state (readPlaceActions_header 7 complete_start) complete_start.
Definition complete_entry := Eval vm_compute in
  final_state (read_swf_event 7 complete_header) complete_header.
Definition complete_end := Eval vm_compute in
  final_state (readPlaceActions 2 7 complete_start) complete_start.

(** A single entry: key press with a declared length of 0, the key code
    [x41] and two action bytes. *)
Definition entry_key_press_no_length : list byte :=
  [x00; x00; x02; x00; x00; x00; x00; x00; x41; x07; x00].

Definition no_length_start := start entry_key_press_no_length.



End Sample.

(** ** Properties *)

Section Properties.

Context `{Collab : Collaborators}.

Lemma bind_ok {S A B} (m : state_m S A) (k : A -> state_m S B) s b s' :
  bind m k s = Ok b s' <->
  exists a s1, m s = Ok a s1 /\ k a s1 = Ok b s'.
Proof.
  unfold bind. split.
  - destruct (m s) as [a s1|e]; [eauto | discriminate].
  - intros (a & s1 & -> & H). exact H.
Qed.

Lemma bind_assoc {S A B C} (m : state_m S A) (k : A -> state_m S B)
    (h : B -> state_m S C) s :
  bind (bind m k) h s = bind m (fun a => bind (k a) h) s.
Proof. unfold bind. destruct (m s); reflexivity. Qed.

Lemma bind_ext {S A B} (m : state_m S A) (k k' : A -> state_m S B) s :
  (forall a s1, k a s1 = k' a s1) -> bind m k s = bind m k' s.
Proof. intros H. unfold bind. destruct (m s); [apply H|reflexivity]. Qed.

Lemma Ok_inj {S A} (a b : A) (s s' : S) :
  @Ok S A a s = Ok b s' -> a = b /\ s = s'.
Proof. intros H. split; congruence. Qed.

Lemma ret_ok {S A} (a b : A) (s s' : S) :
  ret a s = Ok b s' <-> b = a /\ s' = s.
Proof.
  unfold ret. split.
  - intros H. inversion H. auto.
  - intros [-> ->]. reflexivity.
Qed.

Lemma in_call_ok {A} (rd : stream -> option (A * stream)) (o : A -> op)
    (s s' : st) (a : A) :
  in_call rd o s = Ok a s' <->
  exists c, rd (inp s) = Some (a, c) /\
            s' = mkSt (this s) c (trace s ++ [o a]) (logs s).
Proof.
  unfold in_call. split.
  - destruct (rd (inp s)) as [[a0 c]|]; [|discriminate].
    intros H. inversion H. subst. eauto.
  - intros (c & -> & ->). reflexivity.
Qed.

Lemma modify_this_ok f (s s' : st) u :
  modify_this f s = Ok u s' <->
  s' = mkSt (f (this s)) (inp s) (trace s) (logs s).
Proof.
  unfold modify_this. destruct u. split.
  - intros H. inversion H. reflexivity.
  - intros ->. reflexivity.
Qed.

Lemma log_swferror_ok m (s s' : st) u :
  log_swferror m s = Ok u s' <->
  s' = mkSt (this s) (inp s) (trace s) (logs s ++ [m]).
Proof.
  unfold log_swferror. destruct u. split.
  - intros H. inversion H. reflexivity.
  - intros ->. reflexivity.
Qed.

Lemma m_matrix_read_ok (s s' : st) u :
  m_matrix_read s = Ok u s' <->
  exists m c, matrix_read (m_matrix (this s)) (inp s) = Some (m, c) /\
              s' = mkSt (set_m_matrix m (this s)) c
                     (trace s ++ [OpMatrixRead]) (logs s).
Proof.
  unfold m_matrix_read. destruct u. split.
  - destruct (matrix_read _ _) as [[m c]|]; [|discriminate].
    intros H. inversion H. eauto.
  - intros (m & c & -> & ->). reflexivity.
Qed.

Lemma m_color_transform_read_rgb_ok (s s' : st) u :
  m_color_transform_read_rgb s = Ok u s' <->
  exists x c,
    cxform_read_rgb (m_color_transform (this s)) (inp s) = Some (x, c) /\
    s' = mkSt (set_m_color_transform x (this s)) c
           (trace s ++ [OpCxformReadRGB]) (logs s).
Proof.
  unfold m_color_transform_read_rgb. destruct u. split.
  - destruct (cxform_read_rgb _ _) as [[x c]|]; [|discriminate].
    intros H. inversion H. eauto.
  - intros (x & c & -> & ->). reflexivity.
Qed.

Lemma m_color_transform_read_rgba_ok (s s' : st) u :
  m_color_transform_read_rgba s = Ok u s' <->
  exists x c,
    cxform_read_rgba (m_color_transform (this s)) (inp s) = Some (x, c) /\
    s' = mkSt (set_m_color_transform x (this s)) c
           (trace s ++ [OpCxformReadRGBA]) (logs s).
Proof.
  unfold m_color_transform_read_rgba. destruct u. split.
  - destruct (cxform_read_rgba _ _) as [[x c]|]; [|discriminate].
    intros H. inversion H. eauto.
  - intros (x & c & -> & ->). reflexivity.
Qed.

Lemma in_get_position_ok (s s' : st) p :
  in_get_position s = Ok p s' <-> p = get_position (inp s) /\ s' = s.
Proof.
  unfold in_get_position. split.
  - intros H. inversion H. auto.
  - intros [-> ->]. reflexivity.
Qed.

Lemma in_get_tag_end_position_ok (s s' : st) p :
  in_get_tag_end_position s = Ok p s' <->
  p = get_tag_end_position (inp s) /\ s' = s.
Proof.
  unfold in_get_tag_end_position. split.
  - intros H. inversion H. auto.
  - intros [-> ->]. reflexivity.
Qed.

Lemma get_this_ok {A} (f : PlaceObject2Tag -> A) (s s' : st) a :
  get_this f s = Ok a s' <-> a = f (this s) /\ s' = s.
Proof.
  unfold get_this. split.
  - intros H. inversion H. auto.
  - intros [-> ->]. reflexivity.
Qed.

(** Takes successful runs apart, one bind at a time. *)
Ltac run_inv :=
  repeat match goal with
    | H : bind _ _ _ = Ok _ _ |- _ =>
        apply bind_ok in H; destruct H as (? & ? & ? & ?)
    | H : ret _ _ = Ok _ _ |- _ =>
        apply ret_ok in H; destruct H; subst
    | H : modify_this _ _ = Ok _ _ |- _ =>
        apply modify_this_ok in H; subst
    | H : log_swferror _ _ = Ok _ _ |- _ =>
        apply log_swferror_ok in H; subst
    | H : in_call _ _ _ = Ok _ _ |- _ =>
        apply in_call_ok in H; destruct H as (? & ? & ?); subst
    | H : m_matrix_read _ = Ok _ _ |- _ =>
        apply m_matrix_read_ok in H; destruct H as (? & ? & ? & ?); subst
    | H : m_color_transform_read_rgb _ = Ok _ _ |- _ =>
        apply m_color_transform_read_rgb_ok in H;
        destruct H as (? & ? & ? & ?); subst
    | H : m_color_transform_read_rgba _ = Ok _ _ |- _ =>
        apply m_color_transform_read_rgba_ok in H;
        destruct H as (? & ? & ? & ?); subst
    | H : in_get_position _ = Ok _ _ |- _ =>
        apply in_get_position_ok in H; destruct H; subst
    | H : in_get_tag_end_position _ = Ok _ _ |- _ =>
        apply in_get_tag_end_position_ok in H; destruct H; subst
    | H : get_this _ _ = Ok _ _ |- _ =>
        apply get_this_ok in H; destruct H; subst
    end;
  cbn [this inp trace logs] in *.

Ltac unfold_reads :=
  unfold in_align, in_read_bit, in_read_uint, in_read_u8, in_read_u16,
    in_read_u32, in_read_string, in_skip_bytes, filter_factory_read_in,
    action_read in *.

Lemma readPlaceObject_ok (s s' : st) :
  readPlaceObject s = Ok tt s' <->
  exists character_id c1 depth c2 m c3,
    read_u16 (inp s) = Some (character_id, c1) /\
    read_u16 c1 = Some (depth, c2) /\
    matrix_read (m_matrix (this s)) c2 = Some (m, c3) /\
    let t3 := set_m_matrix m
                (set_m_depth (depth + staticDepthOffset)
                   (set_m_character_id character_id (this s))) in
    let tr3 := trace s ++ [OpU16 character_id; OpU16 depth; OpMatrixRead] in
    if get_position c3 <? get_tag_end_position c3
    then exists x c4,
        cxform_read_rgb (m_color_transform (this s)) c3 = Some (x, c4) /\
        s' = mkSt (set_m_color_transform x t3) c4
               (tr3 ++ [OpCxformReadRGB]) (logs s)
    else s' = mkSt t3 c3 tr3 (logs s).
Proof.
  unfold readPlaceObject. unfold_reads.
  split.
  - intros H. run_inv. simpl in *.
    do 6 eexists. repeat (split; [eassumption|]).
    cbv zeta.
    destruct (get_position _ <? get_tag_end_position _); run_inv; simpl.
    + do 2 eexists. split; [eassumption|].
      rewrite <- !app_assoc. reflexivity.
    + rewrite <- !app_assoc. reflexivity.
  - intros (cid & c1 & d & c2 & m & c3 & H1 & H2 & H3 & H4).
    cbv zeta in H4.
    unfold bind, in_call, modify_this, m_matrix_read, in_get_position,
      in_get_tag_end_position. simpl.
    rewrite H1. simpl. rewrite H2. simpl. rewrite H3. simpl.
    destruct (get_position _ <? get_tag_end_position _).
    + destruct H4 as (x & c4 & H4 & ->).
      unfold m_color_transform_read_rgb. simpl. rewrite H4.
      rewrite <- !app_assoc. reflexivity.
    + subst s'. unfold ret. rewrite <- !app_assoc. reflexivity.
Qed.

(** *** The event table *)

Lemma st_eta (s : st) :
  mkSt (this s) (inp s) (trace s) (logs s) = s.
Proof. destruct s. reflexivity. Qed.

Lemma set_m_event_handlers_eta (t : PlaceObject2Tag) :
  set_m_event_handlers (m_event_handlers t) t = t.
Proof. destruct t. reflexivity. Qed.

Lemma make_events_ok todo : forall i mask flags ch act (s : st),
  make_events todo i mask flags ch act s =
  Ok tt (mkSt (set_m_event_handlers
                 (m_event_handlers (this s)
                    ++ events_for todo i mask flags ch act) (this s))
           (inp s) (trace s) (logs s)).
Proof.
  induction todo as [|todo IH]; intros i mask flags ch act s; simpl.
  - rewrite app_nil_r, set_m_event_handlers_eta, st_eta. reflexivity.
  - destruct (negb (Z.land flags mask =? 0)).
    + unfold bind, push_back_handler, modify_this. rewrite IH. simpl.
      rewrite <- app_assoc. reflexivity.
    + apply IH.
Qed.


Lemma remaining_is_distance (c : stream) :
  get_tag_end_position c - get_position c = remaining c.
Proof. unfold get_tag_end_position, get_position. lia. Qed.

Lemma bind_step {S A B} (m : state_m S A) (k : A -> state_m S B) s a s1 :
  m s = Ok a s1 -> bind m k s = k a s1.
Proof. unfold bind. intros ->. reflexivity. Qed.

Lemma in_call_step {A} (rd : stream -> option (A * stream)) (o : A -> op)
    (s : st) a c :
  rd (inp s) = Some (a, c) ->
  in_call rd o s = Ok a (mkSt (this s) c (trace s ++ [o a]) (logs s)).
Proof. intros H. unfold in_call. rewrite H. reflexivity. Qed.

Lemma flags_word_step v (s : st) flags c1 :
  (if v >=? 6 then read_u32 (inp s) else read_u16 (inp s))
    = Some (flags, c1) ->
  (if v >=? 6 then in_read_u32 else in_read_u16) s =
  Ok flags (mkSt (this s) c1 (trace s ++ [flags_word_op v flags]) (logs s)).
Proof.
  unfold flags_word_op, in_read_u32, in_read_u16.
  destruct (v >=? 6); apply in_call_step.
Qed.

Lemma flags_word_inv v (s s' : st) flags :
  (if v >=? 6 then in_read_u32 else in_read_u16) s = Ok flags s' ->
  exists c1,
    (if v >=? 6 then read_u32 (inp s) else read_u16 (inp s))
      = Some (flags, c1) /\
    s' = mkSt (this s) c1 (trace s ++ [flags_word_op v flags]) (logs s).
Proof.
  unfold flags_word_op, in_read_u32, in_read_u16.
  destruct (v >=? 6); intros H; apply in_call_ok in H; exact H.
Qed.

Ltac proj_st := cbn [this inp trace logs].

(** Runs the next call of the program in the goal, given what the
    stream returns for it. *)
Ltac fwd_with H :=
  erewrite bind_step by (apply in_call_step; proj_st; exact H); proj_st.
Ltac fwd_flags H :=
  erewrite bind_step by (apply flags_word_step; proj_st; exact H); proj_st.
Ltac fwd_refl :=
  erewrite bind_step by reflexivity; proj_st.

(** The declared length runs past the end of the tag: the loop is left,
    nothing more is read and no event is added. *)
Lemma read_swf_event_length_past_end v (s : st) flags c1 len c2 :
  (if v >=? 6 then read_u32 (align (inp s)) else read_u16 (align (inp s)))
    = Some (flags, c1) ->
  flags <> 0 ->
  read_u32 c1 = Some (len, c2) ->
  remaining c2 < len ->
  read_swf_event v s =
  Ok Break
    (mkSt (this s) c2
       (trace s ++ [OpAlign; flags_word_op v flags; OpU32 len])
       (logs s ++ [EventLengthPastTagEnd len (remaining c2)])).
Proof.
  intros Hf Hnz Hl Hlt.
  unfold read_swf_event.
  unfold in_align at 1. fwd_refl.
  fwd_flags Hf.
  destruct (flags =? 0) eqn:E0; [apply Z.eqb_eq in E0; contradiction|].
  unfold in_read_u32 at 1. fwd_with Hl.
  unfold in_get_tag_end_position at 1. fwd_refl.
  unfold in_get_position at 1. fwd_refl.
  rewrite remaining_is_distance.
  destruct (remaining c2 <? len) eqn:E1; [|apply Z.ltb_ge in E1; lia].
  unfold log_swferror at 1. fwd_refl.
  unfold ret. rewrite <- !app_assoc. reflexivity.
Qed.

Lemma key_code_step flags len (s : st) ch c3 :
  (if has_key_press flags
   then read_u8 (inp s) = Some (ch, c3)
   else ch = u8 key_INVALID /\ c3 = inp s) ->
  (if negb (Z.land flags (Z.shiftl 1 17) =? 0)
   then ch <- in_read_u8 ;; ret (ch, u32 (len - 1))
   else ret (u8 key_INVALID, len)) s =
  Ok (ch, event_budget flags len)
    (mkSt (this s) c3
       (trace s ++ (if has_key_press flags then [OpU8 ch] else []))
       (logs s)).
Proof.
  unfold event_budget, has_key_press.
  destruct (negb (Z.land flags (Z.shiftl 1 17) =? 0)); intros H.
  - unfold in_read_u8. fwd_with H. reflexivity.
  - destruct H as [-> ->]. unfold ret. rewrite app_nil_r, st_eta.
    reflexivity.
Qed.

Lemma key_code_inv flags len (s s' : st) ch budget :
  (if negb (Z.land flags (Z.shiftl 1 17) =? 0)
   then ch <- in_read_u8 ;; ret (ch, u32 (len - 1))
   else ret (u8 key_INVALID, len)) s = Ok (ch, budget) s' ->
  budget = event_budget flags len /\
  exists c3,
    (if has_key_press flags
     then read_u8 (inp s) = Some (ch, c3)
     else ch = u8 key_INVALID /\ c3 = inp s) /\
    s' = mkSt (this s) c3
           (trace s ++ (if has_key_press flags then [OpU8 ch] else []))
           (logs s).
Proof.
  unfold event_budget, has_key_press.
  destruct (negb (Z.land flags (Z.shiftl 1 17) =? 0)); intros H.
  - unfold in_read_u8 in H. run_inv.
    match goal with H : (_, _) = (_, _) |- _ => inversion H; subst end.
    split; [reflexivity|]. eexists. split; [eassumption|reflexivity].
  - apply ret_ok in H. destruct H as [H ->]. inversion H; subst.
    split; [reflexivity|]. exists (inp s). rewrite app_nil_r, st_eta. auto.
Qed.

(** More action bytes were parsed than the declared length allows: the
    loop is left and no event is added. *)
Lemma read_swf_event_overrun v (s : st) flags c1 len c2 ch c3 buf c4 :
  (if v >=? 6 then read_u32 (align (inp s)) else read_u16 (align (inp s)))
    = Some (flags, c1) ->
  flags <> 0 ->
  read_u32 c1 = Some (len, c2) ->
  len <= remaining c2 ->
  (if has_key_press flags
   then read_u8 c2 = Some (ch, c3)
   else ch = u8 key_INVALID /\ c3 = c2) ->
  action_buffer_read c3 = Some (buf, c4) ->
  Z.of_nat (length buf) > event_budget flags len ->
  read_swf_event v s =
  Ok Break
    (mkSt (this s) c4
       (trace s ++ [OpAlign; flags_word_op v flags; OpU32 len]
          ++ (if has_key_press flags then [OpU8 ch] else [])
          ++ [OpActionRead buf])
       (logs s ++ [ReadPastEventLength (event_budget flags len)
                     (Z.of_nat (length buf))])).
Proof.
  intros Hf Hnz Hl Hle Hk Ha Hgt.
  unfold read_swf_event.
  unfold in_align at 1. fwd_refl.
  fwd_flags Hf.
  destruct (flags =? 0) eqn:E0; [apply Z.eqb_eq in E0; contradiction|].
  unfold in_read_u32 at 1. fwd_with Hl.
  unfold in_get_tag_end_position at 1. fwd_refl.
  unfold in_get_position at 1. fwd_refl.
  rewrite remaining_is_distance.
  destruct (remaining c2 <? len) eqn:E1; [apply Z.ltb_lt in E1; lia|].
  erewrite bind_step by (apply key_code_step; proj_st; exact Hk). proj_st.
  unfold action_read at 1. fwd_with Ha.
  destruct (Z.of_nat (length buf) >? event_budget flags len) eqn:E2;
    [|rewrite Z.gtb_ltb in E2; apply Z.ltb_ge in E2; lia].
  unfold log_swferror at 1. fwd_refl.
  unfold ret. rewrite <- !app_assoc. reflexivity.
Qed.

(** What a turn of the loop that adds events has done. *)
Lemma read_swf_event_continue_inv v (s s' : st) :
  read_swf_event v s = Ok Continue s' ->
  exists flags c1 len c2 ch c3 buf c4 c5,
    (if v >=? 6 then read_u32 (align (inp s)) else read_u16 (align (inp s)))
      = Some (flags, c1) /\
    flags <> 0 /\
    read_u32 c1 = Some (len, c2) /\
    len <= remaining c2 /\
    (if has_key_press flags
     then read_u8 c2 = Some (ch, c3)
     else ch = u8 key_INVALID /\ c3 = c2) /\
    action_buffer_read c3 = Some (buf, c4) /\
    let readlen := Z.of_nat (length buf) in
    let budget := event_budget flags len in
    readlen <= budget /\
    (if readlen <? budget
     then skip_bytes (budget - readlen) c4 = (true, c5)
     else c5 = c4) /\
    s' = mkSt
           (set_m_event_handlers
              (m_event_handlers (this s)
                 ++ events_for total_known_events 0 1 flags ch (Some buf))
              (this s))
           c5
           (trace s ++ [OpAlign; flags_word_op v flags; OpU32 len]
              ++ (if has_key_press flags then [OpU8 ch] else [])
              ++ [OpActionRead buf]
              ++ (if readlen <? budget
                  then [OpSkipBytes (budget - readlen) true] else []))
           (logs s
              ++ (if readlen <? budget
                  then [SkippingExcessiveBytes budget readlen] else [])
              ++ (if has_unknown_bits flags
                  then [UnknownEventType flags] else [])).
Proof.
  unfold read_swf_event. intros H.
  apply bind_ok in H. destruct H as ([] & s1 & H1 & H).
  unfold in_align in H1. apply in_call_ok in H1.
  destruct H1 as (c0 & Hc0 & ->). inversion Hc0; subst c0; clear Hc0.
  apply bind_ok in H. destruct H as (flags & s2 & H2 & H).
  apply flags_word_inv in H2. destruct H2 as (c1 & Hf & ->).
  cbn [this inp trace logs] in *.
  destruct (flags =? 0) eqn:E0.
  { apply ret_ok in H. destruct H; discriminate. }
  apply Z.eqb_neq in E0.
  apply bind_ok in H. destruct H as (len & s3 & H3 & H).
  unfold in_read_u32 in H3. apply in_call_ok in H3.
  destruct H3 as (c2 & Hl & ->). cbn [this inp trace logs] in *.
  apply bind_ok in H. destruct H as (te & s4 & H4 & H).
  apply in_get_tag_end_position_ok in H4. destruct H4 as [-> ->].
  apply bind_ok in H. destruct H as (po & s5 & H5 & H).
  apply in_get_position_ok in H5. destruct H5 as [-> ->].
  cbn [this inp trace logs] in *.
  rewrite remaining_is_distance in H.
  destruct (remaining c2 <? len) eqn:E1.
  { run_inv. discriminate. }
  apply Z.ltb_ge in E1.
  apply bind_ok in H. destruct H as ([ch budget] & s6 & H6 & H).
  apply key_code_inv in H6. destruct H6 as (-> & c3 & Hk & ->).
  cbn [this inp trace logs] in *.
  apply bind_ok in H. destruct H as (buf & s7 & H7 & H).
  unfold action_read in H7. apply in_call_ok in H7.
  destruct H7 as (c4 & Ha & ->). cbn [this inp trace logs] in *.
  destruct (Z.of_nat (length buf) >? event_budget flags len) eqn:E2.
  { run_inv. discriminate. }
  rewrite Z.gtb_ltb in E2. apply Z.ltb_ge in E2.
  apply bind_ok in H. destruct H as (skipped & s8 & H8 & H).
  destruct skipped; cbn [negb] in H;
    [|apply ret_ok in H; destruct H; discriminate].
  apply bind_ok in H. destruct H as ([] & s9 & H9 & H).
  apply bind_ok in H. destruct H as ([] & s10 & H10 & H).
  apply ret_ok in H. destruct H as [_ ->].
  rewrite make_events_ok in H10. apply Ok_inj in H10.
  destruct H10 as [_ H10]. subst s10.
  assert (Hs9 : s9 = mkSt (this s8) (inp s8) (trace s8)
                   (logs s8 ++ (if has_unknown_bits flags
                                then [UnknownEventType flags] else []))).
  { unfold has_unknown_bits.
    destruct (negb (Z.shiftr flags (Z.of_nat total_known_events) =? 0)).
    - apply log_swferror_ok in H9. exact H9.
    - apply ret_ok in H9. destruct H9 as [_ ->].
      rewrite app_nil_r, st_eta. reflexivity. }
  subst s9. cbn [this inp trace logs] in *.
  exists flags, c1, len, c2, ch, c3, buf, c4.
  cbv zeta.
  destruct (Z.of_nat (length buf) <? event_budget flags len) eqn:E3.
  - run_inv.
    match goal with
    | H : in_skip_bytes _ _ = Ok _ _ |- _ =>
        unfold in_skip_bytes in H; apply in_call_ok in H;
        destruct H as (c5 & Hs & ->)
    end.
    cbn [this inp trace logs] in *.
    assert (Hs' : skip_bytes (event_budget flags len
                              - Z.of_nat (length buf)) c4 = (x1, c5))
      by congruence.
    clear Hs.
    destruct x1; cbn [negb] in *; run_inv; [|discriminate].
    exists c5. repeat (split; [assumption|]).
    rewrite <- !app_assoc. reflexivity.
  - apply ret_ok in H8. destruct H8 as [_ ->].
    cbn [this inp trace logs] in *.
    exists c4. repeat (split; [assumption|]).
    split; [reflexivity|].
    rewrite <- !app_assoc. rewrite !app_nil_r. reflexivity.
Qed.

(** *** The loop over the entries *)

Lemma read_swf_events_break fuel v (s s' : st) :
  read_swf_event v s = Ok Break s' ->
  read_swf_events (S fuel) v s = Ok tt s'.
Proof.
  intros H. cbn [read_swf_events]. erewrite bind_step by exact H.
  reflexivity.
Qed.

Lemma read_swf_events_continue fuel v (s s1 : st) :
  read_swf_event v s = Ok Continue s1 ->
  read_swf_events (S fuel) v s = read_swf_events fuel v s1.
Proof.
  intros H. cbn [read_swf_events]. erewrite bind_step by exact H.
  reflexivity.
Qed.

Lemma entries_read_run v k (s sk : st) :
  entries_read v k s sk ->
  forall fuel,
    read_swf_events (k + fuel) v s = read_swf_events fuel v sk.
Proof.
  induction 1 as [s|k s s1 sk Hstep _ IH]; intros fuel.
  - reflexivity.
  - cbn [Nat.add]. rewrite (read_swf_events_continue _ _ _ _ Hstep).
    apply IH.
Qed.

(** Entries read in full only append to [m_event_handlers]. *)
Lemma entries_read_handlers v k (s sk : st) :
  entries_read v k s sk ->
  exists l,
    m_event_handlers (this sk) = m_event_handlers (this s) ++ l.
Proof.
  induction 1 as [s|k s s1 sk Hstep _ IH].
  - exists []. rewrite app_nil_r. reflexivity.
  - destruct IH as (l & IH).
    apply read_swf_event_continue_inv in Hstep.
    destruct Hstep
      as (flags & c1 & len & c2 & ch & c3 & buf & c4 & c5 & _ & _ & _ & _
          & _ & _ & Hs).
    cbv zeta in Hs. destruct Hs as (_ & _ & ->).
    cbn [this] in IH. unfold set_m_event_handlers in IH at 1.
    cbn [m_event_handlers] in IH.
    rewrite IH, <- app_assoc. eauto.
Qed.

Lemma read_u16_advances c x c' :
  read_u16 c = Some (x, c') ->
  get_position c' = get_position c + 2 /\
  get_tag_end_position c' = get_tag_end_position c.
Proof.
  unfold read_u16, get_tag_end_position, get_position, remaining.
  destruct c as [p [|x0 [|x1 r]] bb]; cbn [unread position];
    try discriminate.
  intros H. injection H as _ <-. cbn [unread position length]. lia.
Qed.

Lemma read_u32_advances c x c' :
  read_u32 c = Some (x, c') ->
  get_position c' = get_position c + 4 /\
  get_tag_end_position c' = get_tag_end_position c.
Proof.
  unfold read_u32, get_tag_end_position, get_position, remaining.
  destruct c as [p [|x0 [|x1 [|x2 [|x3 r]]]] bb]; cbn [unread position];
    try discriminate.
  intros H. injection H as _ <-. cbn [unread position length]. lia.
Qed.

Lemma flags_word_advances v c flags c' :
  (if v >=? 6 then read_u32 c else read_u16 c) = Some (flags, c') ->
  get_position c' = get_position c + (if v >=? 6 then 4 else 2) /\
  get_tag_end_position c' = get_tag_end_position c.
Proof.
  destruct (v >=? 6); [apply read_u32_advances | apply read_u16_advances].
Qed.

(** [readPlaceActions] is its header followed by the loop. *)
Lemma readPlaceActions_split fuel v (s : st) :
  readPlaceActions fuel v s =
  (readPlaceActions_header v ;; read_swf_events fuel v) s.
Proof.
  unfold readPlaceActions, readPlaceActions_header, bind.
  destruct (in_read_u16 s) as [reserved s1|]; [|reflexivity].
  destruct (negb (reserved =? 0)).
  - destruct (log_swferror (ReservedFieldNotZero reserved) s1)
      as [u s2|]; [|reflexivity].
    destruct (v >=? 6);
      [destruct (in_read_u32 s2)|destruct (in_read_u16 s2)]; reflexivity.
  - destruct (ret tt s1) as [u s2|]; [|reflexivity].
    destruct (v >=? 6);
      [destruct (in_read_u32 s2)|destruct (in_read_u16 s2)]; reflexivity.
Qed.

Lemma readPlaceActions_header_ok v (s s0 : st) :
  readPlaceActions_header v s = Ok tt s0 <->
  exists reserved c1 flags c2,
    read_u16 (inp s) = Some (reserved, c1) /\
    (if v >=? 6 then read_u32 c1 else read_u16 c1) = Some (flags, c2) /\
    s0 = mkSt (set_all_event_flags flags (this s)) c2
           (trace s ++ [OpU16 reserved; flags_word_op v flags])
           (logs s ++ (if reserved =? 0 then []
                       else [ReservedFieldNotZero reserved])).
Proof.
  unfold readPlaceActions_header. split.
  - intros H.
    apply bind_ok in H. destruct H as (reserved & s1 & H1 & H).
    unfold in_read_u16 in H1. apply in_call_ok in H1.
    destruct H1 as (c1 & Hr & ->).
    apply bind_ok in H. destruct H as ([] & s2 & H2 & H).
    apply bind_ok in H. destruct H as (flags & s3 & H3 & H).
    apply flags_word_inv in H3. destruct H3 as (c2 & Hf & ->).
    apply modify_this_ok in H. subst s0.
    exists reserved, c1, flags, c2.
    destruct (reserved =? 0); cbn [negb] in H2; run_inv;
      (split; [assumption|]); (split; [assumption|]);
      rewrite <- ?app_assoc, ?app_nil_r; reflexivity.
  - intros (reserved & c1 & flags & c2 & Hr & Hf & ->).
    unfold in_read_u16 at 1. fwd_with Hr.
    destruct (reserved =? 0); cbn [negb].
    + fwd_refl. fwd_flags Hf. unfold modify_this. proj_st.
      rewrite <- !app_assoc, app_nil_r. reflexivity.
    + unfold log_swferror at 1. fwd_refl. fwd_flags Hf.
      unfold modify_this. proj_st. rewrite <- !app_assoc. reflexivity.
Qed.

Lemma tag_tail_ok fuel v hc mv (s s' : st) :
  readPlaceActions fuel v s = Ok tt s' ->
  (when true (readPlaceActions fuel v) ;;
   modify_this (derive_place_type hc mv)) s =
  Ok tt (mkSt (derive_place_type hc mv (this s')) (inp s') (trace s')
           (logs s')).
Proof.
  intros H. cbn [when]. erewrite bind_step by exact H. reflexivity.
Qed.

Lemma entries_then_break fuel k v (sH s0 s s' : st) :
  readPlaceActions_header v sH = Ok tt s0 ->
  entries_read v k s0 s ->
  read_swf_event v s = Ok Break s' ->
  readPlaceActions (k + S fuel) v sH = Ok tt s'.
Proof.
  intros Hh Hk Hb.
  rewrite readPlaceActions_split. erewrite bind_step by exact Hh.
  rewrite (entries_read_run _ _ _ _ Hk).
  apply read_swf_events_break. exact Hb.
Qed.

(** C9: every event table starts with a header that is read before the
    first entry: a 16-bit reserved field, reported to the log when it is
    not zero and never a failure, then the flags of all events, 32 bits
    wide from format version 6 on and 16 bits before.  The entries start
    6 or 4 bytes after the start of the table.  [readPlaceActions]
    succeeds exactly when these two reads succeed and the loop over the
    entries, run after them, succeeds. *)
Theorem readPlaceActions_reads_header_first fuel v (s s' : st) :
  readPlaceActions fuel v s = Ok tt s' <->
  exists reserved c1 flags c2,
    read_u16 (inp s) = Some (reserved, c1) /\
    (if v >=? 6 then read_u32 c1 else read_u16 c1) = Some (flags, c2) /\
    get_position c2 = get_position (inp s) + (if v >=? 6 then 6 else 4) /\
    read_swf_events fuel v
      (mkSt (set_all_event_flags flags (this s)) c2
         (trace s ++ [OpU16 reserved; flags_word_op v flags])
         (logs s ++ (if reserved =? 0 then []
                     else [ReservedFieldNotZero reserved])))
    = Ok tt s'.
Proof.
  rewrite readPlaceActions_split. split.
  - intros H. apply bind_ok in H. destruct H as ([] & s0 & Hh & H).
    apply readPlaceActions_header_ok in Hh.
    destruct Hh as (reserved & c1 & flags & c2 & Hr & Hf & ->).
    exists reserved, c1, flags, c2.
    repeat (split; [assumption|]). split; [|exact H].
    apply read_u16_advances in Hr. apply flags_word_advances in Hf.
    destruct (v >=? 6); lia.
  - intros (reserved & c1 & flags & c2 & Hr & Hf & _ & H).
    erewrite bind_step; [exact H|].
    apply readPlaceActions_header_ok. eauto 10.
Qed.

(** C5: an entry whose declared length exceeds the bytes left before the
    end of the tag ends the event table: the message is logged, the loop
    is left with the stream just behind the length word (nothing of the
    entry's body is read, nothing past the end of the tag), no event is
    added, and [readPlaceActions], as well as the rest of
    [readPlaceObject2] behind it, completes without an error. *)
Theorem event_length_past_tag_end_stops_the_table
    fuel k v hc mv (sH s0 s : st) flags c1 len c2 :
  readPlaceActions_header v sH = Ok tt s0 ->
  entries_read v k s0 s ->
  (if v >=? 6 then read_u32 (align (inp s)) else read_u16 (align (inp s)))
    = Some (flags, c1) ->
  flags <> 0 ->
  read_u32 c1 = Some (len, c2) ->
  remaining c2 < len ->
  let s' := mkSt (this s) c2
              (trace s ++ [OpAlign; flags_word_op v flags; OpU32 len])
              (logs s ++ [EventLengthPastTagEnd len (remaining c2)]) in
  readPlaceActions (k + S fuel) v sH = Ok tt s' /\
  (when true (readPlaceActions (k + S fuel) v) ;;
   modify_this (derive_place_type hc mv)) sH =
  Ok tt (mkSt (derive_place_type hc mv (this s)) c2 (trace s') (logs s')) /\
  get_position c2 = get_position (inp s) + (if v >=? 6 then 8 else 6) /\
  get_tag_end_position c2 = get_tag_end_position (inp s) /\
  get_position c2 <= get_tag_end_position c2.
Proof.
  intros Hh Hk Hf Hnz Hl Hlt s'.
  assert (Hrun : readPlaceActions (k + S fuel) v sH = Ok tt s').
  { eapply entries_then_break; try eassumption.
    eapply read_swf_event_length_past_end; eassumption. }
  split; [exact Hrun|]. split.
  { rewrite (tag_tail_ok _ _ hc mv _ _ Hrun). reflexivity. }
  apply flags_word_advances in Hf. apply read_u32_advances in Hl.
  unfold get_position, get_tag_end_position, remaining, align in *.
  cbn [position unread] in *.
  destruct (v >=? 6); lia.
Qed.

(** C10: when the action reader has parsed more bytes than the entry's
    declared length allows, the loop is left: the message is logged, no
    event is added for this entry, the events of the [k] entries read
    before it stay in [m_event_handlers] as they were, and
    [readPlaceActions], as well as the rest of [readPlaceObject2] behind
    it, completes without an error. *)
Theorem overrun_keeps_the_earlier_events
    fuel k v hc mv (sH s0 s : st) flags c1 len c2 ch c3 buf c4 :
  readPlaceActions_header v sH = Ok tt s0 ->
  entries_read v k s0 s ->
  (if v >=? 6 then read_u32 (align (inp s)) else read_u16 (align (inp s)))
    = Some (flags, c1) ->
  flags <> 0 ->
  read_u32 c1 = Some (len, c2) ->
  len <= remaining c2 ->
  (if has_key_press flags
   then read_u8 c2 = Some (ch, c3)
   else ch = u8 key_INVALID /\ c3 = c2) ->
  action_buffer_read c3 = Some (buf, c4) ->
  Z.of_nat (length buf) > event_budget flags len ->
  exists s',
    readPlaceActions (k + S fuel) v sH = Ok tt s' /\
    (when true (readPlaceActions (k + S fuel) v) ;;
     modify_this (derive_place_type hc mv)) sH =
    Ok tt (mkSt (derive_place_type hc mv (this s')) (inp s') (trace s')
             (logs s')) /\
    m_event_handlers (this s') = m_event_handlers (this s) /\
    (exists l,
        m_event_handlers (this s') = m_event_handlers (this s0) ++ l) /\
    logs s' = logs s ++ [ReadPastEventLength (event_budget flags len)
                           (Z.of_nat (length buf))].
Proof.
  intros Hh Hk Hf Hnz Hl Hle Hkey Ha Hgt.
  pose proof (read_swf_event_overrun v s flags c1 len c2 ch c3 buf c4
                Hf Hnz Hl Hle Hkey Ha Hgt) as Hb.
  pose proof (entries_then_break fuel k v sH s0 s _ Hh Hk Hb) as Hrun.
  eexists.
  split; [exact Hrun|]. split; [apply tag_tail_ok; exact Hrun|].
  cbn [this logs]. split; [reflexivity|]. split; [|reflexivity].
  eapply entries_read_handlers. eassumption.
Qed.

(** *** Fuel *)

Lemma ot_ret {A} (a : A) : only_truncates (ret a).
Proof. intros s e H. discriminate. Qed.

Lemma ot_bind {A B} (m : M A) (k : A -> M B) :
  only_truncates m -> (forall a, only_truncates (k a)) ->
  only_truncates (bind m k).
Proof.
  intros Hm Hk s e H. unfold bind in H.
  destruct (m s) as [a s1|e1] eqn:E.
  - exact (Hk a s1 e H).
  - injection H as <-. exact (Hm s e1 E).
Qed.

Lemma ot_if {A} (b : bool) (m1 m2 : M A) :
  only_truncates m1 -> only_truncates m2 ->
  only_truncates (if b then m1 else m2).
Proof. destruct b; auto. Qed.

Lemma ot_in_call {A} (rd : stream -> option (A * stream)) (o : A -> op) :
  only_truncates (in_call rd o).
Proof.
  intros s e H. unfold in_call in H.
  destruct (rd (inp s)) as [[a c]|]; [discriminate|].
  injection H as <-. reflexivity.
Qed.

Lemma ot_log m : only_truncates (log_swferror m).
Proof. intros s e H. discriminate. Qed.

Lemma ot_position : only_truncates in_get_position.
Proof. intros s e H. discriminate. Qed.

Lemma ot_tag_end : only_truncates in_get_tag_end_position.
Proof. intros s e H. discriminate. Qed.

Lemma ot_make_events todo i mask flags ch act :
  only_truncates (make_events todo i mask flags ch act).
Proof. intros s e H. rewrite make_events_ok in H. discriminate. Qed.

Create HintDb ot.
#[local] Hint Resolve ot_ret ot_if ot_in_call ot_log ot_position ot_tag_end
  ot_make_events : ot.

Lemma ot_read_swf_event v : only_truncates (read_swf_event v).
Proof.
  unfold read_swf_event. unfold_reads.
  repeat first
    [ solve [auto with ot]
    | apply ot_if
    | apply ot_bind;
      [|match goal with
        | |- forall _ : _ * _, _ => intros [? ?]
        | |- _ => intros ?
        end] ].
Qed.

Lemma flags_word_shrinks v c flags c' :
  (if v >=? 6 then read_u32 c else read_u16 c) = Some (flags, c') ->
  (length (unread c') < length (unread c))%nat.
Proof.
  intros H. apply flags_word_advances in H.
  unfold get_position, get_tag_end_position, remaining in H.
  destruct (v >=? 6); lia.
Qed.

Lemma read_u32_shrinks c x c' :
  read_u32 c = Some (x, c') ->
  (length (unread c') < length (unread c))%nat.
Proof.
  intros H. apply read_u32_advances in H.
  unfold get_position, get_tag_end_position, remaining in H. lia.
Qed.

Lemma read_u8_shrinks c x c' :
  read_u8 c = Some (x, c') ->
  (length (unread c') < length (unread c))%nat.
Proof.
  unfold read_u8. destruct (unread c) as [|x0 r] eqn:E; [discriminate|].
  intros H. injection H as _ <-. cbn [unread length]. lia.
Qed.

Lemma skip_bytes_shrinks n c b c' :
  skip_bytes n c = (b, c') ->
  (length (unread c') <= length (unread c))%nat.
Proof.
  unfold skip_bytes.
  destruct ((0 <=? n) && (n <=? remaining c));
    intros H; injection H as _ <-; [|lia].
  cbn [unread]. rewrite length_skipn. lia.
Qed.

(** With an action reader that never moves the stream backwards, every
    entry read in full consumes bytes of the tag, so fuel beyond the
    number of unread bytes is never used up: the loop then ends, with a
    result or with a read past the end. *)
Lemma read_swf_events_enough_fuel :
  (forall c buf c',
      action_buffer_read c = Some (buf, c') ->
      (length (unread c') <= length (unread c))%nat) ->
  forall fuel v (s : st),
    (length (unread (inp s)) < fuel)%nat ->
    read_swf_events fuel v s <> Failed OutOfFuel.
Proof.
  intros Hrd fuel. induction fuel as [|fuel IH]; intros v s Hlen; [lia|].
  cbn [read_swf_events]. unfold bind.
  destruct (read_swf_event v s) as [[|] s1|e] eqn:E.
  - apply IH.
    apply read_swf_event_continue_inv in E.
    destruct E as (flags & c1 & len & c2 & ch & c3 & buf & c4 & c5 & Hf & _
                   & Hl & _ & Hk & Ha & Hs).
    cbv zeta in Hs. destruct Hs as (_ & Hskip & ->). cbn [inp].
    apply flags_word_shrinks in Hf. cbn [align unread] in Hf.
    apply read_u32_shrinks in Hl. apply Hrd in Ha.
    assert (length (unread c3) <= length (unread c2))%nat.
    { destruct (has_key_press flags).
      - apply read_u8_shrinks in Hk. lia.
      - destruct Hk as [_ ->]. lia. }
    assert (length (unread c5) <= length (unread c4))%nat.
    { destruct (_ <? _).
      - apply skip_bytes_shrinks in Hskip. exact Hskip.
      - subst c5. lia. }
    lia.
  - discriminate.
  - intros H. injection H as ->.
    apply ot_read_swf_event in E. discriminate.
Qed.

(** *** The events of one entry *)

Lemma land_pow2_testbit flags i :
  0 <= i ->
  negb (Z.land flags (2 ^ i) =? 0) = Z.testbit flags i.
Proof.
  intros Hi. destruct (Z.testbit flags i) eqn:E.
  - destruct (Z.land flags (2 ^ i) =? 0) eqn:E0; [|reflexivity].
    apply Z.eqb_eq in E0.
    assert (H : Z.testbit (Z.land flags (2 ^ i)) i = true).
    { rewrite Z.land_spec, E, Z.pow2_bits_true by assumption. reflexivity. }
    rewrite E0, Z.bits_0 in H. discriminate.
  - assert (H : Z.land flags (2 ^ i) = 0).
    { apply Z.bits_inj'. intros n Hn.
      rewrite Z.land_spec, Z.bits_0, Z.pow2_bits_eqb by assumption.
      destruct (Z.eqb_spec i n) as [->|_].
      - rewrite E. reflexivity.
      - apply andb_false_r. }
    rewrite H. reflexivity.
Qed.

Lemma first_owns_None l :
  first_owns None l = map (fun e => mkSwfEvent e None) l.
Proof. destruct l; reflexivity. Qed.

Lemma events_for_closed todo : forall i flags ch act,
  0 <= i ->
  events_for todo i (2 ^ i) flags ch act =
  first_owns act
    (map (event_of_bit ch)
       (filter (Z.testbit flags)
          (map Z.of_nat (seq (Z.to_nat i) todo)))).
Proof.
  induction todo as [|todo IH]; intros i flags ch act Hi.
  - reflexivity.
  - cbn [events_for seq map filter].
    rewrite land_pow2_testbit by assumption.
    rewrite Z2Nat.id by assumption.
    replace (Z.shiftl (2 ^ i) 1) with (2 ^ (i + 1))
      by (rewrite Z.shiftl_mul_pow2, Z.pow_add_r by lia; reflexivity).
    replace (S (Z.to_nat i)) with (Z.to_nat (i + 1)) by lia.
    destruct (Z.testbit flags i).
    + rewrite IH by lia. rewrite first_owns_None.
      cbn [map first_owns]. f_equal.
      unfold event_of_bit. destruct (i =? 17); reflexivity.
    + apply IH. lia.
Qed.

Lemma known_bits_events flags ch act :
  events_for total_known_events 0 1 flags ch act =
  first_owns act (map (event_of_bit ch) (known_bits flags)).
Proof. apply (events_for_closed total_known_events 0). lia. Qed.

Lemma first_owns_length act l : length (first_owns act l) = length l.
Proof. destruct l; cbn; [|rewrite length_map]; reflexivity. Qed.

Lemma first_owns_action act l e b :
  In e (first_owns act l) -> action e = Some b -> act = Some b.
Proof.
  destruct l as [|e0 l]; cbn [first_owns]; [intros []|].
  intros [<-|Hin] Hb.
  - exact Hb.
  - apply in_map_iff in Hin. destruct Hin as (e' & <- & _). discriminate.
Qed.

(** C6: what one entry adds to [m_event_handlers].  For a flag word
    [flags], key code [ch] and captured buffer [buf], the loop over the
    19 known bit positions always completes and appends one event per
    known bit set, lowest bit first, each of the kind [s_code_bits]
    names, the one for bit 17 carrying [ch]; bits from 19 up add
    nothing.  The local [auto_ptr] is passed by value to each
    [swf_event], so the buffer goes to the first of these events and
    every later one is built from a null pointer: for mouse-down and
    mouse-up together (flag word [0x30]) the second event has no
    buffer. *)
Theorem make_events_gives_buffer_to_first_event_only :
  (forall flags ch buf (s : st),
      make_events total_known_events 0 1 flags ch (Some buf) s =
      Ok tt
        (mkSt
           (set_m_event_handlers
              (m_event_handlers (this s)
                 ++ first_owns (Some buf)
                      (map (event_of_bit ch) (known_bits flags)))
              (this s))
           (inp s) (trace s) (logs s))) /\
  (forall flags ch buf,
      length (first_owns (Some buf)
                (map (event_of_bit ch) (known_bits flags)))
      = length (known_bits flags)) /\
  (forall ch buf (s : st),
      make_events total_known_events 0 1 48 ch (Some buf) s =
      Ok tt
        (mkSt
           (set_m_event_handlers
              (m_event_handlers (this s)
                 ++ [mkSwfEvent (ev MOUSE_DOWN) (Some buf);
                     mkSwfEvent (ev MOUSE_UP) None])
              (this s))
           (inp s) (trace s) (logs s))).
Proof.
  split; [|split].
  - intros flags ch buf s.
    rewrite make_events_ok, known_bits_events. reflexivity.
  - intros flags ch buf. rewrite first_owns_length, length_map.
    reflexivity.
  - intros ch buf s. rewrite make_events_ok. reflexivity.
Qed.

(** C2, as the code has it: [action->read(in)] is given no length, so
    the captured buffer is whatever the action reader parsed.  An entry
    adds its events only when the size of that buffer does not exceed
    the budget, which is the declared length, less one modulo 2^32 when
    bit 17 is set and the key code byte was read; the bytes between the
    captured size and the budget are then skipped, so captured and
    skipped bytes together make up the budget.  Every event of the
    entry that holds a buffer holds this one.  With bit 17 set and a
    declared length of 5 the budget is 4. *)
Theorem entry_captures_at_most_the_declared_length v (s s' : st) :
  read_swf_event v s = Ok Continue s' ->
  exists flags len ch buf,
    let budget := event_budget flags len in
    let readlen := Z.of_nat (length buf) in
    readlen <= budget /\
    trace s' =
      trace s ++ [OpAlign; flags_word_op v flags; OpU32 len]
        ++ (if has_key_press flags then [OpU8 ch] else [])
        ++ [OpActionRead buf]
        ++ (if readlen <? budget
            then [OpSkipBytes (budget - readlen) true] else []) /\
    (exists l,
        m_event_handlers (this s') = m_event_handlers (this s) ++ l /\
        forall e b, In e l -> action e = Some b -> b = buf) /\
    (has_key_press flags = true -> 0 < len < 2 ^ 32 ->
     budget = len - 1) /\
    (has_key_press flags = false -> budget = len).
Proof.
  intros H. apply read_swf_event_continue_inv in H.
  destruct H as (flags & c1 & len & c2 & ch & c3 & buf & c4 & c5 & _ & _
                 & _ & _ & _ & _ & H).
  cbv zeta in H. destruct H as (Hle & _ & ->).
  exists flags, len, ch, buf. cbv zeta. cbn [this trace].
  split; [exact Hle|]. split; [reflexivity|]. split; [|split].
  - eexists. split; [reflexivity|].
    intros e b Hin Hb. rewrite known_bits_events in Hin.
    pose proof (first_owns_action _ _ _ _ Hin Hb) as E.
    congruence.
  - unfold event_budget, u32. intros -> Hlen.
    apply Z.mod_small. lia.
  - unfold event_budget. intros ->. reflexivity.
Qed.

Lemma byte_val_range b : 0 <= byte_val b < 2 ^ 8.
Proof.
  unfold byte_val. pose proof (Byte.to_N_bounded b). lia.
Qed.

Lemma lor_range n a b :
  0 <= n -> 0 <= a < 2 ^ n -> 0 <= b < 2 ^ n -> 0 <= Z.lor a b < 2 ^ n.
Proof.
  intros Hn Ha Hb. split; [apply Z.lor_nonneg; lia|].
  destruct (Z.eq_dec (Z.lor a b) 0) as [->|Hz]; [lia|].
  assert (Hpos : 0 < n).
  { destruct (Z.eq_dec n 0) as [->|]; [|lia].
    exfalso. assert (a = 0) by lia. assert (b = 0) by lia. subst.
    apply Hz. reflexivity. }
  apply Z.log2_lt_pow2; [pose proof (Z.lor_nonneg a b); lia|].
  rewrite Z.log2_lor by lia.
  apply Z.max_lub_lt.
  - destruct (Z.eq_dec a 0) as [->|]; [cbn; lia|].
    apply Z.log2_lt_pow2; lia.
  - destruct (Z.eq_dec b 0) as [->|]; [cbn; lia|].
    apply Z.log2_lt_pow2; lia.
Qed.

Lemma read_u16_range c x c' :
  read_u16 c = Some (x, c') -> 0 <= x < 2 ^ 16.
Proof.
  unfold read_u16. destruct (unread c) as [|x0 [|x1 r]]; try discriminate.
  intros H.
  assert (E : x = Z.lor (byte_val x0) (Z.shiftl (byte_val x1) 8))
    by congruence.
  subst x. clear H.
  pose proof (byte_val_range x0). pose proof (byte_val_range x1).
  apply (lor_range 16); try lia.
  rewrite Z.shiftl_mul_pow2 by lia. lia.
Qed.

(** *** The extended variants *)

Ltac proj_in H := cbn [this inp trace logs] in H.

Ltac next H x sx Hx :=
  apply bind_ok in H; destruct H as (x & sx & Hx & H).

Lemma when_false_inv (m : M unit) (s s' : st) :
  when false m s = Ok tt s' ->
  s' = mkSt (this s) (inp s) (trace s ++ []) (logs s).
Proof.
  intros H. apply ret_ok in H. destruct H as [_ ->].
  rewrite app_nil_r, st_eta. reflexivity.
Qed.

Lemma v8_flags_inv (c : bool) (s s' : st) hbc hbm hf :
  (if c
   then
     in_read_uint 5 ;;
     has_bitmap_caching <- in_read_bit ;;
     has_blend_mode <- in_read_bit ;;
     has_filters <- in_read_bit ;;
     ret (has_bitmap_caching, has_blend_mode, has_filters)
   else ret (false, false, false)) s = Ok (hbc, hbm, hf) s' ->
  exists r ci,
    s' = mkSt (this s) ci
           (trace s ++ (if c then [OpUInt 5 r; OpBit hbc; OpBit hbm;
                                   OpBit hf] else []))
           (logs s) /\
    (c = false -> hbc = false /\ hbm = false /\ hf = false).
Proof.
  destruct c; intros H.
  - unfold in_read_uint, in_read_bit in H. run_inv.
    match goal with H : (_, _) = (_, _) |- _ => inversion H; subst end.
    eexists _, _. split; [|discriminate].
    rewrite <- !app_assoc. reflexivity.
  - apply ret_ok in H. destruct H as [H ->]. inversion H; subst.
    exists 0, (inp s). rewrite app_nil_r, st_eta. auto.
Qed.

Lemma when_char_inv b (s s' : st) :
  when b (character_id <- in_read_u16 ;;
          modify_this (set_m_character_id character_id)) s = Ok tt s' ->
  exists cid ci,
    s' = mkSt (if b then set_m_character_id cid (this s) else this s) ci
           (trace s ++ opt_op b (OpU16 cid)) (logs s).
Proof.
  destruct b; intros H.
  - cbn [when] in H. unfold in_read_u16 in H. run_inv.
    eexists _, _. reflexivity.
  - exists 0, (inp s). apply when_false_inv in H. exact H.
Qed.

Lemma when_matrix_inv b (s s' : st) :
  when b (modify_this (set_m_has_matrix true) ;; m_matrix_read) s
    = Ok tt s' ->
  exists m ci,
    s' = mkSt (if b then set_m_matrix m (set_m_has_matrix true (this s))
               else this s) ci
           (trace s ++ opt_op b OpMatrixRead) (logs s).
Proof.
  destruct b; intros H.
  - cbn [when] in H. run_inv. eexists _, _. reflexivity.
  - exists (m_matrix (this s)), (inp s).
    apply when_false_inv in H. exact H.
Qed.

Lemma when_cxform_inv b (s s' : st) :
  when b (modify_this (set_m_has_cxform true) ;;
          m_color_transform_read_rgba) s = Ok tt s' ->
  exists x ci,
    s' = mkSt (if b
               then set_m_color_transform x
                      (set_m_has_cxform true (this s))
               else this s) ci
           (trace s ++ opt_op b OpCxformReadRGBA) (logs s).
Proof.
  destruct b; intros H.
  - cbn [when] in H. run_inv. eexists _, _. reflexivity.
  - exists (m_color_transform (this s)), (inp s).
    apply when_false_inv in H. exact H.
Qed.

Lemma ratio_inv (b : bool) (s s' : st) :
  (if b
   then ratio <- in_read_u16 ;; modify_this (set_m_ratio ratio)
   else modify_this (set_m_ratio noRatioValue)) s = Ok tt s' ->
  exists ratio ci,
    s' = mkSt (set_m_ratio (if b then ratio else noRatioValue) (this s)) ci
           (trace s ++ opt_op b (OpU16 ratio)) (logs s).
Proof.
  destruct b; intros H.
  - unfold in_read_u16 in H. run_inv. eexists _, _. reflexivity.
  - run_inv. exists 0, (inp s). cbn [opt_op]. rewrite app_nil_r.
    reflexivity.
Qed.

Lemma when_name_inv b (s s' : st) :
  when b (name <- in_read_string ;; modify_this (set_m_name (Some name))) s
    = Ok tt s' ->
  exists name ci,
    s' = mkSt (if b then set_m_name (Some name) (this s) else this s) ci
           (trace s ++ opt_op b (OpString name)) (logs s).
Proof.
  destruct b; intros H.
  - cbn [when] in H. unfold in_read_string in H. run_inv.
    eexists _, _. reflexivity.
  - exists [], (inp s). apply when_false_inv in H. exact H.
Qed.

Lemma clip_depth_inv (b : bool) (s s' : st) :
  (if b
   then
     clip_depth <- in_read_u16 ;;
     modify_this (set_m_clip_depth (clip_depth + staticDepthOffset))
   else modify_this (set_m_clip_depth noClipDepthValue)) s = Ok tt s' ->
  exists clip ci,
    s' = mkSt (set_m_clip_depth
                 (if b then clip + staticDepthOffset
                  else noClipDepthValue) (this s)) ci
           (trace s ++ opt_op b (OpU16 clip)) (logs s).
Proof.
  destruct b; intros H.
  - unfold in_read_u16 in H. run_inv. eexists _, _. reflexivity.
  - run_inv. exists 0, (inp s). cbn [opt_op]. rewrite app_nil_r.
    reflexivity.
Qed.

Lemma when_filters_inv b v (s s' : st) :
  when b (filter_factory_read_in v) s = Ok tt s' ->
  exists ci,
    s' = mkSt (this s) ci (trace s ++ opt_op b OpFilterRead) (logs s).
Proof.
  destruct b; intros H.
  - cbn [when] in H. unfold filter_factory_read_in in H. run_inv.
    eexists. reflexivity.
  - exists (inp s). apply when_false_inv in H. exact H.
Qed.

Lemma when_u8_inv b (s s' : st) :
  when b (in_read_u8 ;; ret tt) s = Ok tt s' ->
  exists x ci,
    s' = mkSt (this s) ci (trace s ++ opt_op b (OpU8 x)) (logs s).
Proof.
  destruct b; intros H.
  - cbn [when] in H. unfold in_read_u8 in H. run_inv.
    eexists _, _. reflexivity.
  - exists 0, (inp s). apply when_false_inv in H. exact H.
Qed.

(** *** The event table leaves the placement alone *)

Lemma etr_ret {A} (a : A) : event_table_run (ret a).
Proof.
  intros s b s' H. apply ret_ok in H. destruct H as [_ ->].
  split; [exists []; rewrite app_nil_r|]; reflexivity.
Qed.

Lemma etr_bind {A B} (m : M A) (k : A -> M B) :
  event_table_run m -> (forall a, event_table_run (k a)) ->
  event_table_run (bind m k).
Proof.
  intros Hm Hk s b s' H. apply bind_ok in H.
  destruct H as (a & s1 & H1 & H2).
  apply Hm in H1. apply Hk in H2.
  destruct H1 as [[tl1 E1] P1]. destruct H2 as [[tl2 E2] P2].
  split.
  - exists (tl1 ++ tl2). rewrite E2, E1, app_assoc. reflexivity.
  - rewrite P2. exact P1.
Qed.

Lemma etr_if {A} (b : bool) (m1 m2 : M A) :
  event_table_run m1 -> event_table_run m2 ->
  event_table_run (if b then m1 else m2).
Proof. destruct b; auto. Qed.

Lemma etr_in_call {A} (rd : stream -> option (A * stream)) (o : A -> op) :
  event_table_run (in_call rd o).
Proof.
  intros s a s' H. apply in_call_ok in H. destruct H as (c & _ & ->).
  split; [eexists|]; reflexivity.
Qed.

Lemma etr_log m : event_table_run (log_swferror m).
Proof.
  intros s a s' H. apply log_swferror_ok in H. subst s'.
  split; [exists []; cbn [trace]; rewrite app_nil_r|]; reflexivity.
Qed.

Lemma etr_position : event_table_run in_get_position.
Proof.
  intros s a s' H. apply in_get_position_ok in H. destruct H as [_ ->].
  split; [exists []; rewrite app_nil_r|]; reflexivity.
Qed.

Lemma etr_tag_end : event_table_run in_get_tag_end_position.
Proof.
  intros s a s' H. apply in_get_tag_end_position_ok in H.
  destruct H as [_ ->].
  split; [exists []; rewrite app_nil_r|]; reflexivity.
Qed.

Lemma etr_all_event_flags flags :
  event_table_run (modify_this (set_all_event_flags flags)).
Proof.
  intros s a s' H. apply modify_this_ok in H. subst s'.
  split; [exists []; cbn [trace]; rewrite app_nil_r|]; reflexivity.
Qed.

Lemma etr_make_events todo i mask flags ch act :
  event_table_run (make_events todo i mask flags ch act).
Proof.
  intros s a s' H. rewrite make_events_ok in H. apply Ok_inj in H.
  destruct H as [_ <-].
  split; [exists []; cbn [trace]; rewrite app_nil_r|]; reflexivity.
Qed.

Create HintDb etr.
#[local] Hint Resolve etr_ret etr_if etr_in_call etr_log etr_position
  etr_tag_end etr_all_event_flags etr_make_events : etr.

Ltac etr_steps :=
  repeat first
    [ solve [auto with etr]
    | apply etr_if
    | apply etr_bind;
      [|match goal with
        | |- forall _ : _ * _, _ => intros [? ?]
        | |- _ => intros ?
        end] ].

Lemma etr_read_swf_event v : event_table_run (read_swf_event v).
Proof.
  unfold read_swf_event. unfold_reads. etr_steps.
Qed.

Lemma etr_read_swf_events fuel v : event_table_run (read_swf_events fuel v).
Proof.
  induction fuel as [|fuel IH]; cbn [read_swf_events].
  - intros s a s' H. discriminate.
  - apply etr_bind; [apply etr_read_swf_event|].
    intros []; [exact IH|apply etr_ret].
Qed.

Lemma etr_readPlaceActions fuel v :
  event_table_run (readPlaceActions fuel v).
Proof.
  unfold readPlaceActions. unfold_reads.
  pose proof (etr_read_swf_events fuel v). etr_steps.
Qed.

(** [readPlaceObject2] is its field part followed by the rest. *)
Lemma readPlaceObject2_split fuel v place_2 (s : st) :
  readPlaceObject2 fuel v place_2 s =
  (flags <- readPlaceObject2_fields v place_2 ;;
   readPlaceObject2_rest fuel v flags) s.
Proof.
  unfold readPlaceObject2, readPlaceObject2_fields.
  repeat (rewrite bind_assoc; apply bind_ext; intros ? ?;
          try match goal with
            | p : (bool * bool * bool)%type |- _ => destruct p as [[? ?] ?]
            end).
  reflexivity.
Qed.

Lemma readPlaceObject2_fields_inv v place_2 (s sf : st) ha' hch' mv' :
  readPlaceObject2_fields v place_2 s = Ok (ha', hch', mv') sf ->
  exists d m x,
    f_has_actions d = ha' /\ f_has_char d = hch' /\ f_flag_move d = mv' /\
    (negb place_2 && (v >=? 8) = false ->
     f_has_bitmap_caching d = false /\ f_has_blend_mode d = false /\
     f_has_filters d = false) /\
    0 <= f_depth d < 2 ^ 16 /\
    trace sf = trace s ++ extended_reads (negb place_2 && (v >=? 8)) d /\
    this sf = extended_tag d m x (this s) /\
    logs sf = logs s.
Proof.
  unfold readPlaceObject2_fields. intros H.
  next H u0 s0 H0. unfold in_align in H0. apply in_call_ok in H0.
  destruct H0 as (c0 & _ & ->). proj_in H.
  unfold in_read_bit in H.
  next H ha s1 H1.
  apply in_call_ok in H1. destruct H1 as (c1 & _ & ->). proj_in H.
  next H hc s2 H2.
  apply in_call_ok in H2. destruct H2 as (c2 & _ & ->). proj_in H.
  next H hn s3 H3.
  apply in_call_ok in H3. destruct H3 as (c3 & _ & ->). proj_in H.
  next H hr s4 H4.
  apply in_call_ok in H4. destruct H4 as (c4 & _ & ->). proj_in H.
  next H hx s5 H5.
  apply in_call_ok in H5. destruct H5 as (c5 & _ & ->). proj_in H.
  next H hm s6 H6.
  apply in_call_ok in H6. destruct H6 as (c6 & _ & ->). proj_in H.
  next H hch s7 H7.
  apply in_call_ok in H7. destruct H7 as (c7 & _ & ->). proj_in H.
  next H mv s8 H8.
  apply in_call_ok in H8. destruct H8 as (c8 & _ & ->). proj_in H.
  next H v8 s9 H9. destruct v8 as [[hbc hbm] hf].
  apply v8_flags_inv in H9. destruct H9 as (r & c9 & -> & Hv8). proj_in H.
  next H depth s10 H10. unfold in_read_u16 in H10.
  apply in_call_ok in H10. destruct H10 as (c10 & Hd & ->). proj_in H.
  apply read_u16_range in Hd.
  next H u11 s11 H11. apply modify_this_ok in H11. subst s11. proj_in H.
  next H u12 s12 H12. destruct u12.
  apply when_char_inv in H12. destruct H12 as (cid & c12 & ->). proj_in H.
  next H u13 s13 H13. destruct u13.
  apply when_matrix_inv in H13. destruct H13 as (m & c13 & ->). proj_in H.
  next H u14 s14 H14. destruct u14.
  apply when_cxform_inv in H14. destruct H14 as (x & c14 & ->). proj_in H.
  next H u15 s15 H15. destruct u15.
  apply ratio_inv in H15. destruct H15 as (ratio & c15 & ->). proj_in H.
  next H u16 s16 H16. destruct u16.
  apply when_name_inv in H16. destruct H16 as (name & c16 & ->). proj_in H.
  next H u17 s17 H17. destruct u17.
  apply clip_depth_inv in H17. destruct H17 as (clip & c17 & ->). proj_in H.
  next H u18 s18 H18. destruct u18.
  apply when_filters_inv in H18. destruct H18 as (c18 & ->). proj_in H.
  next H u19 s19 H19. destruct u19.
  apply when_u8_inv in H19. destruct H19 as (blend & c19 & ->). proj_in H.
  next H u20 s20 H20. destruct u20.
  apply when_u8_inv in H20. destruct H20 as (bitmask & c20 & ->). proj_in H.
  apply ret_ok in H. destruct H as [Hflags ->].
  apply (f_equal (fun p => (fst (fst p), snd (fst p), snd p))) in Hflags.
  cbn [fst snd] in Hflags.
  assert (Ea : ha = ha') by congruence.
  assert (Ec : hch = hch') by congruence.
  assert (Em : mv = mv') by congruence.
  subst ha' hch' mv'. clear Hflags.
  cbn [this inp trace logs] in *.
  exists (mkFields ha hc hn hr hx hm hch mv r hbc hbm hf depth cid ratio
            name clip blend bitmask), m, x.
  split; [reflexivity|]. split; [reflexivity|]. split; [reflexivity|].
  split; [exact Hv8|]. split; [exact Hd|].
  split; [|split; reflexivity].
  unfold extended_reads.
  cbn [f_has_actions f_has_clip_bracket f_has_name f_has_ratio
       f_has_cxform f_has_matrix f_has_char f_flag_move f_reserved
       f_has_bitmap_caching f_has_blend_mode f_has_filters f_depth
       f_character_id f_ratio f_name f_clip_depth f_blend_mode
       f_bitmask].
  rewrite <- !app_assoc. reflexivity.
Qed.

Lemma readPlaceObject2_inv fuel v place_2 (s s' : st) :
  readPlaceObject2 fuel v place_2 s = Ok tt s' ->
  exists d m x sf sa,
    (negb place_2 && (v >=? 8) = false ->
     f_has_bitmap_caching d = false /\ f_has_blend_mode d = false /\
     f_has_filters d = false) /\
    0 <= f_depth d < 2 ^ 16 /\
    trace sf = trace s ++ extended_reads (negb place_2 && (v >=? 8)) d /\
    this sf = extended_tag d m x (this s) /\
    logs sf = logs s /\
    (if f_has_actions d
     then readPlaceActions fuel v sf = Ok tt sa
     else sa = sf) /\
    s' = mkSt (derive_place_type (f_has_char d) (f_flag_move d) (this sa))
           (inp sa) (trace sa) (logs sa).
Proof.
  intros H. rewrite readPlaceObject2_split in H.
  apply bind_ok in H. destruct H as ([[ha hch] mv] & sf & Hf & H).
  apply readPlaceObject2_fields_inv in Hf.
  destruct Hf as (d & m & x & <- & <- & <- & Hv8 & Hd & Ht & Hthis & Hl).
  unfold readPlaceObject2_rest in H.
  next H u sa Ha. destruct u. apply modify_this_ok in H.
  exists d, m, x, sf, sa.
  repeat (split; [assumption|]). split; [|exact H].
  destruct (f_has_actions d); cbn [when] in Ha.
  - exact Ha.
  - apply ret_ok in Ha. destruct Ha as [_ ->]. reflexivity.
Qed.

Lemma derive_place_type_table hc mv (t : PlaceObject2Tag) :
  derive_place_type hc mv t = set_m_place_type (place_type_table hc mv) t.
Proof. destruct hc, mv; reflexivity. Qed.

Lemma readPlaceObject2_summary fuel v place_2 (s s' : st) :
  readPlaceObject2 fuel v place_2 s = Ok tt s' ->
  exists d m x tl,
    (negb place_2 && (v >=? 8) = false ->
     f_has_bitmap_caching d = false /\ f_has_blend_mode d = false /\
     f_has_filters d = false) /\
    0 <= f_depth d < 2 ^ 16 /\
    trace s' =
      trace s ++ extended_reads (negb place_2 && (v >=? 8)) d ++ tl /\
    (f_has_actions d = false -> tl = []) /\
    placement_part (this s') =
    placement_part
      (set_m_place_type (place_type_table (f_has_char d) (f_flag_move d))
         (extended_tag d m x (this s))).
Proof.
  intros H. apply readPlaceObject2_inv in H.
  destruct H as (d & m & x & sf & sa & Hv8 & Hd & Ht & Hthis & _ & Ha & ->).
  cbn [this trace]. rewrite derive_place_type_table.
  assert (Hsa : (exists tl, trace sa = trace sf ++ tl /\
                            (f_has_actions d = false -> tl = [])) /\
                placement_part (this sa) = placement_part (this sf)).
  { destruct (f_has_actions d).
    - apply etr_readPlaceActions in Ha. destruct Ha as [[tl E] P].
      split; [exists tl; split; [exact E|discriminate]|exact P].
    - subst sa. split; [|reflexivity].
      exists []. rewrite app_nil_r. auto. }
  destruct Hsa as [(tl & E & Hnil) P].
  exists d, m, x, tl. repeat (split; [assumption|]).
  split; [rewrite E, Ht, <- app_assoc; reflexivity|].
  split; [exact Hnil|].
  rewrite <- Hthis.
  change (set_m_place_type
            (place_type_table (f_has_char d) (f_flag_move d))
            (placement_part (this sa)) =
          set_m_place_type
            (place_type_table (f_has_char d) (f_flag_move d))
            (placement_part (this sf))).
  rewrite P. reflexivity.
Qed.

Lemma read_ok fuel tag v (s s' : st) :
  read fuel tag v s = Ok tt s' <->
  match tag with
  | PLACEOBJECT => readPlaceObject
  | PLACEOBJECT2 => readPlaceObject2 fuel v true
  | PLACEOBJECT3 => readPlaceObject2 fuel v false
  end (mkSt (set_m_tag_type tag (this s)) (inp s) (trace s) (logs s))
  = Ok tt s'.
Proof.
  unfold read. rewrite bind_ok. split.
  - intros (u & s0 & H0 & H). apply modify_this_ok in H0. subst s0.
    destruct tag; exact H.
  - intros H. eexists tt, _. split; [reflexivity|].
    destruct tag; exact H.
Qed.

Lemma legacy_reads fuel v (s s' : st) :
  read fuel PLACEOBJECT v s = Ok tt s' ->
  exists character_id c1 depth c2 m c3,
    read_u16 (inp s) = Some (character_id, c1) /\
    read_u16 c1 = Some (depth, c2) /\
    matrix_read (m_matrix (this s)) c2 = Some (m, c3) /\
    let t3 := set_m_matrix m
                (set_m_depth (depth + staticDepthOffset)
                   (set_m_character_id character_id
                      (set_m_tag_type PLACEOBJECT (this s)))) in
    let tr3 := trace s ++ [OpU16 character_id; OpU16 depth; OpMatrixRead] in
    if get_position c3 <? get_tag_end_position c3
    then exists x c4,
        cxform_read_rgb (m_color_transform (this s)) c3 = Some (x, c4) /\
        s' = mkSt (set_m_color_transform x t3) c4
               (tr3 ++ [OpCxformReadRGB]) (logs s)
    else s' = mkSt t3 c3 tr3 (logs s).
Proof.
  rewrite read_ok, readPlaceObject_ok. intros H. exact H.
Qed.

(** C3: the legacy tag.  [read] on a [PLACEOBJECT] tag succeeds exactly
    when the character id (16 bits), the depth (16 bits) and the matrix
    can be read in this order, and, in case the stream is then strictly
    before the end of the tag, the colour transform in its RGB form can
    be read after them.  The depth stored is the one read plus
    [staticDepthOffset].  The colour transform is read if and only if
    the position is before the end of the tag; no flag is involved. *)
Theorem legacy_tag_reads_in_order fuel v (s s' : st) :
  read fuel PLACEOBJECT v s = Ok tt s' <->
  exists character_id c1 depth c2 m c3,
    read_u16 (inp s) = Some (character_id, c1) /\
    read_u16 c1 = Some (depth, c2) /\
    matrix_read (m_matrix (this s)) c2 = Some (m, c3) /\
    let t3 := set_m_matrix m
                (set_m_depth (depth + staticDepthOffset)
                   (set_m_character_id character_id
                      (set_m_tag_type PLACEOBJECT (this s)))) in
    let tr3 := trace s ++ [OpU16 character_id; OpU16 depth; OpMatrixRead] in
    if get_position c3 <? get_tag_end_position c3
    then exists x c4,
        cxform_read_rgb (m_color_transform (this s)) c3 = Some (x, c4) /\
        s' = mkSt (set_m_color_transform x t3) c4
               (tr3 ++ [OpCxformReadRGB]) (logs s)
    else s' = mkSt t3 c3 tr3 (logs s).
Proof.
  rewrite read_ok, readPlaceObject_ok. reflexivity.
Qed.

Lemma placement_part_fields (t t' : PlaceObject2Tag) :
  placement_part t = placement_part t' ->
  m_depth t = m_depth t' /\
  m_place_type t = m_place_type t' /\
  m_has_matrix t = m_has_matrix t' /\
  m_has_cxform t = m_has_cxform t' /\
  m_matrix t = m_matrix t' /\
  m_color_transform t = m_color_transform t' /\
  m_ratio t = m_ratio t' /\
  m_clip_depth t = m_clip_depth t' /\
  m_character_id t = m_character_id t' /\
  m_name t = m_name t'.
Proof.
  intros H.
  repeat split;
    [ apply (f_equal m_depth) in H
    | apply (f_equal m_place_type) in H
    | apply (f_equal m_has_matrix) in H
    | apply (f_equal m_has_cxform) in H
    | apply (f_equal m_matrix) in H
    | apply (f_equal m_color_transform) in H
    | apply (f_equal m_ratio) in H
    | apply (f_equal m_clip_depth) in H
    | apply (f_equal m_character_id) in H
    | apply (f_equal m_name) in H ];
    exact H.
Qed.

(** Whether the three flags of PlaceObject3 are read. *)
Lemma v8_of_tag tag v :
  tag <> PLACEOBJECT ->
  negb (match tag with PLACEOBJECT3 => false | _ => true end)
    && (v >=? 8)
  = match tag with PLACEOBJECT3 => v >=? 8 | _ => false end.
Proof. destruct tag; intros H; try reflexivity. Qed.

(** C1: the PlaceType of an extended tag is the one the table gives for
    the seventh and eighth flag read, has-character and move. *)
Theorem place_type_follows_the_table fuel v place_2 (s s' : st) :
  readPlaceObject2 fuel v place_2 s = Ok tt s' ->
  exists d tl,
    trace s' =
      trace s ++ extended_reads (negb place_2 && (v >=? 8)) d ++ tl /\
    m_place_type (this s')
    = place_type_table (f_has_char d) (f_flag_move d) /\
    place_type_table true false = PLACE /\
    place_type_table true true = REPLACE /\
    place_type_table false true = MOVE /\
    place_type_table false false = REMOVE.
Proof.
  intros H. apply readPlaceObject2_summary in H.
  destruct H as (d & m & x & tl & _ & _ & Ht & _ & P).
  exists d, tl. split; [exact Ht|].
  apply placement_part_fields in P.
  destruct P as (_ & P & _). rewrite P.
  repeat split.
Qed.

(** C4: the extended tags.  A [read] of a [PLACEOBJECT2] or
    [PLACEOBJECT3] tag succeeds exactly when its field part,
    [readPlaceObject2_fields], succeeds and, under has-actions, the
    event table read from the state [sf] the field part leaves succeeds
    too.  The field part has made exactly the reads of
    [extended_reads], in that order: the eight flags has-actions,
    has-clip-depth, has-name, has-ratio, has-cxform, has-matrix,
    has-character and move; five reserved bits and the flags
    has-bitmap-caching, has-blend-mode and has-filters if and only if
    the tag is [PLACEOBJECT3] and the version is at least 8 (the three
    flags are false otherwise); the depth; then, each under its flag,
    character id, matrix, colour transform in its RGBA form, ratio,
    name, clip depth, filter list, blend-mode byte and bitmap-caching
    byte.  The tag then holds what [extended_tag] says: the sentinels
    for an absent ratio and an absent clip depth, and nothing of the
    filter list or the two bytes; the log is untouched.  The event
    table comes last: under has-actions [readPlaceActions] runs on
    [sf] itself and ends in [sa], otherwise [sa] is [sf]; and the
    decode ends in [sa] with the PlaceType set, so its stream, its
    reads and its log are those of [sa]: nothing is read between the
    fields and the table, and nothing after the table. *)
Theorem extended_tag_reads_in_order fuel tag v (s s' : st) :
  tag <> PLACEOBJECT ->
  (read fuel tag v s = Ok tt s' <->
   exists d m x sf sa tl,
     let v8 := match tag with PLACEOBJECT3 => v >=? 8 | _ => false end in
     let place_2 := match tag with PLACEOBJECT3 => false | _ => true end in
     readPlaceObject2_fields v place_2
       (mkSt (set_m_tag_type tag (this s)) (inp s) (trace s) (logs s))
     = Ok (f_has_actions d, f_has_char d, f_flag_move d) sf /\
     (v8 = false ->
      f_has_bitmap_caching d = false /\ f_has_blend_mode d = false /\
      f_has_filters d = false) /\
     trace sf = trace s ++ extended_reads v8 d /\
     this sf = extended_tag d m x (set_m_tag_type tag (this s)) /\
     logs sf = logs s /\
     (if f_has_actions d
      then readPlaceActions fuel v sf = Ok tt sa
      else sa = sf) /\
     trace sa = trace sf ++ tl /\
     (f_has_actions d = false -> tl = []) /\
     s' = mkSt (set_m_place_type
                  (place_type_table (f_has_char d) (f_flag_move d))
                  (this sa))
            (inp sa) (trace sa) (logs sa)).
Proof.
  intros Htag.
  assert (Hread : read fuel tag v s = Ok tt s' <->
                  readPlaceObject2 fuel v
                    (match tag with PLACEOBJECT3 => false | _ => true end)
                    (mkSt (set_m_tag_type tag (this s)) (inp s) (trace s)
                       (logs s)) = Ok tt s').
  { split; intros H.
    - apply (proj1 (read_ok fuel tag v s s')) in H.
      destruct tag; [contradiction|exact H|exact H].
    - apply (proj2 (read_ok fuel tag v s s')).
      destruct tag; [contradiction|exact H|exact H]. }
  rewrite Hread, readPlaceObject2_split. clear Hread. cbv zeta. split.
  - intros H. apply bind_ok in H.
    destruct H as ([[ha hch] mv] & sf & Hf & H).
    destruct (readPlaceObject2_fields_inv _ _ _ _ _ _ _ Hf)
      as (d & m & x & <- & <- & <- & Hv8 & _ & Ht & Hthis & Hl).
    rewrite (v8_of_tag tag v Htag) in Hv8, Ht.
    cbn [this trace logs] in Ht, Hthis, Hl.
    unfold readPlaceObject2_rest in H. next H u sa Ha. destruct u.
    apply modify_this_ok in H. rewrite derive_place_type_table in H.
    assert (Hsa : exists tl, trace sa = trace sf ++ tl /\
                             (f_has_actions d = false -> tl = [])).
    { destruct (f_has_actions d); cbn [when] in Ha.
      - apply etr_readPlaceActions in Ha. destruct Ha as [[tl E] _].
        exists tl. split; [exact E|discriminate].
      - apply ret_ok in Ha. destruct Ha as [_ ->].
        exists []. rewrite app_nil_r. auto. }
    destruct Hsa as (tl & E & Hnil).
    exists d, m, x, sf, sa, tl.
    repeat (split; [assumption|]).
    split; [|auto].
    destruct (f_has_actions d); cbn [when] in Ha.
    + exact Ha.
    + apply ret_ok in Ha. destruct Ha as [_ ->]. reflexivity.
  - intros (d & m & x & sf & sa & tl & Hf & _ & _ & _ & _ & Ha & _ & _ & ->).
    erewrite bind_step by exact Hf. unfold readPlaceObject2_rest.
    rewrite <- derive_place_type_table.
    destruct (f_has_actions d); cbn [when].
    + erewrite bind_step by exact Ha. reflexivity.
    + subst sa. reflexivity.
Qed.

Lemma extended_tag_fields d m x (t : PlaceObject2Tag) :
  m_depth (extended_tag d m x t) = f_depth d + staticDepthOffset /\
  m_has_cxform (extended_tag d m x t) = f_has_cxform d || m_has_cxform t /\
  m_has_matrix (extended_tag d m x t) = f_has_matrix d || m_has_matrix t /\
  m_ratio (extended_tag d m x t)
  = (if f_has_ratio d then f_ratio d else noRatioValue) /\
  m_clip_depth (extended_tag d m x t)
  = (if f_has_clip_bracket d
     then f_clip_depth d + staticDepthOffset else noClipDepthValue).
Proof.
  unfold extended_tag.
  destruct (f_has_char d), (f_has_matrix d), (f_has_cxform d),
    (f_has_name d); repeat split.
Qed.

(** What the Move of section 4.4 does to the display list. *)
Lemma display_list_move_effect (dl : DisplayList) depth cx mat ratio clip
    inst :
  dl depth = Some inst ->
  exists inst',
    display_list_move dl depth cx mat ratio clip depth = Some inst' /\
    inst_character_id inst' = inst_character_id inst /\
    inst_name inst' = inst_name inst /\
    inst_event_handlers inst' = inst_event_handlers inst /\
    (cx = None -> inst_cxform inst' = inst_cxform inst) /\
    (mat = None -> inst_matrix inst' = inst_matrix inst) /\
    (ratio = noRatioValue -> inst_ratio inst' = inst_ratio inst) /\
    (clip = noClipDepthValue ->
     inst_clip_depth inst' = inst_clip_depth inst) /\
    (forall d', d' <> depth ->
                display_list_move dl depth cx mat ratio clip d' = dl d').
Proof.
  intros Hd. unfold display_list_move. rewrite Hd.
  eexists. rewrite Z.eqb_refl. split; [reflexivity|].
  cbn [inst_character_id inst_name inst_event_handlers inst_cxform
       inst_matrix inst_ratio inst_clip_depth].
  repeat split.
  - intros ->. reflexivity.
  - intros ->. reflexivity.
  - intros ->. rewrite Z.eqb_refl. reflexivity.
  - intros ->. rewrite Z.eqb_refl. reflexivity.
  - intros d' Hne. apply Z.eqb_neq in Hne. rewrite Hne. reflexivity.
Qed.

(** C7: a Move.  When a tag read into a new tag object (no matrix and
    no colour transform marked present) comes out with PlaceType MOVE,
    its has-character flag was clear and its move flag set, and
    [execute] calls [move_display_object] with the depth, the colour
    transform only if has-cxform was set and the matrix only if
    has-matrix was set (a null pointer otherwise), the ratio or its
    sentinel and the clip depth or its sentinel; character id, name and
    event handlers are not passed.  On the display list the instance at
    that depth keeps its character, name and event handlers, and keeps
    each of matrix, colour transform, ratio and clip depth whose flag
    was clear, unless a ratio or clip depth that was read equals the
    sentinel; other depths are untouched. *)
Theorem move_updates_only_present_fields fuel tag v (s s' : st) :
  tag <> PLACEOBJECT ->
  m_has_matrix (this s) = false ->
  m_has_cxform (this s) = false ->
  read fuel tag v s = Ok tt s' ->
  m_place_type (this s') = MOVE ->
  exists d tl,
    let v8 := match tag with PLACEOBJECT3 => v >=? 8 | _ => false end in
    let cx := if f_has_cxform d
              then Some (m_color_transform (this s')) else None in
    let mat := if f_has_matrix d then Some (m_matrix (this s')) else None in
    let ratio := if f_has_ratio d then f_ratio d else noRatioValue in
    let clip := if f_has_clip_bracket d
                then f_clip_depth d + staticDepthOffset
                else noClipDepthValue in
    let depth := f_depth d + staticDepthOffset in
    trace s' = trace s ++ extended_reads v8 d ++ tl /\
    f_has_char d = false /\ f_flag_move d = true /\
    execute (this s') = move_display_object depth cx mat ratio clip /\
    forall (dl : DisplayList) inst,
      dl depth = Some inst ->
      exists inst',
        display_list_move dl depth cx mat ratio clip depth = Some inst' /\
        inst_character_id inst' = inst_character_id inst /\
        inst_name inst' = inst_name inst /\
        inst_event_handlers inst' = inst_event_handlers inst /\
        (f_has_cxform d = false -> inst_cxform inst' = inst_cxform inst) /\
        (f_has_matrix d = false -> inst_matrix inst' = inst_matrix inst) /\
        (f_has_ratio d = false -> inst_ratio inst' = inst_ratio inst) /\
        (f_has_clip_bracket d = false ->
         inst_clip_depth inst' = inst_clip_depth inst) /\
        (forall d', d' <> depth ->
           display_list_move dl depth cx mat ratio clip d' = dl d').
Proof.
  intros Htag Hm0 Hx0 H Hmove.
  apply (proj1 (read_ok fuel tag v s s')) in H.
  assert (H' : readPlaceObject2 fuel v
                 (match tag with PLACEOBJECT3 => false | _ => true end)
                 (mkSt (set_m_tag_type tag (this s)) (inp s) (trace s)
                    (logs s)) = Ok tt s')
    by (destruct tag; [contradiction|exact H|exact H]).
  clear H. apply readPlaceObject2_summary in H'.
  rewrite (v8_of_tag tag v Htag) in H'.
  destruct H' as (d & m & x & tl & _ & _ & Ht & _ & P).
  cbn [this trace] in *.
  apply placement_part_fields in P.
  destruct P as (Pd & Pp & Pm & Px & _ & _ & Pr & Pc & _).
  cbn [m_depth m_place_type m_has_matrix m_has_cxform m_ratio m_clip_depth
       set_m_place_type] in *.
  destruct (extended_tag_fields d m x (set_m_tag_type tag (this s)))
    as (Ed & Ex & Em & Er & Ec).
  rewrite Ed in Pd. rewrite Ex in Px. rewrite Em in Pm.
  rewrite Er in Pr. rewrite Ec in Pc.
  cbn [m_has_cxform m_has_matrix set_m_tag_type] in *.
  rewrite Hx0, orb_false_r in Px. rewrite Hm0, orb_false_r in Pm.
  rewrite Hmove in Pp.
  assert (Hflags : f_has_char d = false /\ f_flag_move d = true).
  { destruct (f_has_char d), (f_flag_move d); cbn in Pp;
      try discriminate. auto. }
  exists d, tl. cbv zeta.
  split; [exact Ht|]. split; [apply Hflags|]. split; [apply Hflags|].
  split.
  - unfold execute. rewrite Hmove, Pd, Px, Pm, Pr, Pc. reflexivity.
  - intros dl inst Hd.
    destruct (display_list_move_effect dl _
                (if f_has_cxform d
                 then Some (m_color_transform (this s')) else None)
                (if f_has_matrix d then Some (m_matrix (this s')) else None)
                (if f_has_ratio d then f_ratio d else noRatioValue)
                (if f_has_clip_bracket d
                 then f_clip_depth d + staticDepthOffset
                 else noClipDepthValue) inst Hd)
      as (inst' & E & Hc & Hn & He & Hcx & Hmat & Hr & Hcl & Hother).
    exists inst'. repeat (split; [assumption|]).
    split; [intros F; apply Hcx; rewrite F; reflexivity|].
    split; [intros F; apply Hmat; rewrite F; reflexivity|].
    split; [intros F; apply Hr; rewrite F; reflexivity|].
    split; [intros F; apply Hcl; rewrite F; reflexivity|].
    exact Hother.
Qed.

(** The depth a successful [read] leaves in the tag is the 16-bit depth
    it read plus [staticDepthOffset]. *)
Lemma read_depth fuel tag v (s sr : st) :
  read fuel tag v s = Ok tt sr ->
  exists raw tl,
    match tag with
    | PLACEOBJECT =>
        exists cid, trace sr = trace s ++ OpU16 cid :: OpU16 raw :: tl
    | _ =>
        exists d,
          raw = f_depth d /\
          trace sr =
            trace s
              ++ extended_reads
                   (match tag with PLACEOBJECT3 => v >=? 8 | _ => false end)
                   d
              ++ tl
    end /\
    0 <= raw < 2 ^ 16 /\
    m_depth (this sr) = raw + staticDepthOffset.
Proof.
  intros H. destruct tag.
  - apply legacy_reads in H.
    destruct H as (cid & c1 & raw & c2 & m & c3 & _ & Hd & _ & H).
    apply read_u16_range in Hd. cbv zeta in H.
    destruct (get_position c3 <? get_tag_end_position c3).
    + destruct H as (x & c4 & _ & ->).
      exists raw, [OpMatrixRead; OpCxformReadRGB].
      split; [exists cid; cbn [trace]; rewrite <- app_assoc; reflexivity|].
      split; [exact Hd|reflexivity].
    + subst sr. exists raw, [OpMatrixRead].
      split; [exists cid; reflexivity|].
      split; [exact Hd|reflexivity].
  - apply (proj1 (read_ok fuel PLACEOBJECT2 v s sr)) in H.
    apply readPlaceObject2_summary in H.
    destruct H as (d & m & x & tl & _ & Hd & Ht & _ & P).
    apply placement_part_fields in P. destruct P as (P & _).
    cbn [m_depth set_m_place_type] in P.
    rewrite (proj1 (extended_tag_fields d m x _)) in P.
    exists (f_depth d), tl.
    split; [exists d; split; [reflexivity|exact Ht]|].
    split; [exact Hd|exact P].
  - apply (proj1 (read_ok fuel PLACEOBJECT3 v s sr)) in H.
    apply readPlaceObject2_summary in H.
    destruct H as (d & m & x & tl & _ & Hd & Ht & _ & P).
    apply placement_part_fields in P. destruct P as (P & _).
    cbn [m_depth set_m_place_type] in P.
    rewrite (proj1 (extended_tag_fields d m x _)) in P.
    exists (f_depth d), tl.
    split; [exists d; split; [reflexivity|exact Ht]|].
    split; [exact Hd|exact P].
Qed.

(** C8: for every tag [loader] decodes, the depth of the tag is the
    16-bit depth read from the stream plus [staticDepthOffset], so an
    encoded depth of 0 becomes [staticDepthOffset].  The depth is handed
    to [addTimelineDepth] if and only if it is negative and at least
    [staticDepthOffset], which here comes down to its being negative;
    otherwise the tag is still added as an execute tag, the depth is
    reported to the log and not registered. *)
Theorem loader_registers_timeline_depths fuel tag v (s s' : st) calls :
  loader fuel tag v s = Ok calls s' ->
  exists sr raw tl,
    read fuel tag v s = Ok tt sr /\
    match tag with
    | PLACEOBJECT =>
        exists cid, trace sr = trace s ++ OpU16 cid :: OpU16 raw :: tl
    | _ =>
        exists d,
          raw = f_depth d /\
          trace sr =
            trace s
              ++ extended_reads
                   (match tag with PLACEOBJECT3 => v >=? 8 | _ => false end)
                   d
              ++ tl
    end /\
    0 <= raw < 2 ^ 16 /\
    m_depth (this sr) = raw + staticDepthOffset /\
    (raw = 0 -> m_depth (this sr) = staticDepthOffset) /\
    (m_depth (this sr) < 0 /\ m_depth (this sr) >= staticDepthOffset <->
     raw + staticDepthOffset < 0) /\
    (if raw + staticDepthOffset <? 0
     then
       calls = [add_execute_tag (this sr);
                addTimelineDepth (raw + staticDepthOffset)] /\
       s' = sr
     else
       calls = [add_execute_tag (this sr)] /\
       s' = mkSt (this sr) (inp sr) (trace sr)
              (logs sr ++ [DepthOutOfStaticZone (raw + staticDepthOffset)])).
Proof.
  unfold loader. intros H.
  next H u sr Hr. destruct u.
  next H ch s1 Hc. apply get_this_ok in Hc. destruct Hc as [-> ->].
  destruct (read_depth _ _ _ _ _ Hr) as (raw & tl & Htr & Hraw & Hd).
  exists sr, raw, tl.
  split; [exact Hr|]. split; [exact Htr|]. split; [exact Hraw|].
  split; [exact Hd|]. split; [intros ->; rewrite Hd; lia|].
  split; [rewrite Hd; lia|].
  rewrite Hd in H.
  replace (raw + staticDepthOffset >=? staticDepthOffset) with true in H
    by (symmetry; apply Z.geb_le; lia).
  rewrite andb_true_r in H.
  destruct (raw + staticDepthOffset <? 0).
  - apply ret_ok in H. destruct H as [-> ->]. auto.
  - run_inv. auto.
Qed.

(** ** Further properties of the decoder *)

(** *** The event table and the tag *)

Lemma ae_ret {A} (a : A) : appends_events (ret a).
Proof.
  intros s b s' H. apply ret_ok in H. destruct H as [_ ->].
  exists []. rewrite app_nil_r, set_m_event_handlers_eta. reflexivity.
Qed.

Lemma ae_bind {A B} (m : M A) (k : A -> M B) :
  appends_events m -> (forall a, appends_events (k a)) ->
  appends_events (bind m k).
Proof.
  intros Hm Hk s b s' H. apply bind_ok in H.
  destruct H as (a & s1 & H1 & H2).
  apply Hm in H1. apply Hk in H2.
  destruct H1 as [l1 E1]. destruct H2 as [l2 E2].
  exists (l1 ++ l2). rewrite E2, E1. unfold set_m_event_handlers.
  cbn [m_event_handlers m_tag_type m_name m_ratio m_has_matrix m_has_cxform
       m_matrix m_color_transform m_character_id m_depth m_clip_depth
       m_place_type all_event_flags].
  rewrite app_assoc. reflexivity.
Qed.

Lemma ae_if {A} (b : bool) (m1 m2 : M A) :
  appends_events m1 -> appends_events m2 ->
  appends_events (if b then m1 else m2).
Proof. destruct b; auto. Qed.

Lemma ae_same_tag {A} (m : M A) :
  (forall s a s', m s = Ok a s' -> this s' = this s) ->
  appends_events m.
Proof.
  intros Hm s a s' H. apply Hm in H. exists [].
  rewrite H, app_nil_r, set_m_event_handlers_eta. reflexivity.
Qed.

Lemma ae_in_call {A} (rd : stream -> option (A * stream)) (o : A -> op) :
  appends_events (in_call rd o).
Proof.
  apply ae_same_tag. intros s a s' H. apply in_call_ok in H.
  destruct H as (c & _ & ->). reflexivity.
Qed.

Lemma ae_log m : appends_events (log_swferror m).
Proof.
  apply ae_same_tag. intros s a s' H. apply log_swferror_ok in H.
  subst s'. reflexivity.
Qed.

Lemma ae_position : appends_events in_get_position.
Proof.
  apply ae_same_tag. intros s a s' H. apply in_get_position_ok in H.
  destruct H as [_ ->]. reflexivity.
Qed.

Lemma ae_tag_end : appends_events in_get_tag_end_position.
Proof.
  apply ae_same_tag. intros s a s' H.
  apply in_get_tag_end_position_ok in H. destruct H as [_ ->].
  reflexivity.
Qed.

Lemma ae_make_events todo i mask flags ch act :
  appends_events (make_events todo i mask flags ch act).
Proof.
  intros s a s' H. rewrite make_events_ok in H. apply Ok_inj in H.
  destruct H as [_ <-]. eexists. reflexivity.
Qed.

Create HintDb ae.
#[local] Hint Resolve ae_ret ae_if ae_in_call ae_log ae_position ae_tag_end
  ae_make_events : ae.

Lemma ae_read_swf_event v : appends_events (read_swf_event v).
Proof.
  unfold read_swf_event. unfold_reads.
  repeat first
    [ solve [auto with ae]
    | apply ae_if
    | apply ae_bind;
      [|match goal with
        | |- forall _ : _ * _, _ => intros [? ?]
        | |- _ => intros ?
        end] ].
Qed.

Lemma ae_read_swf_events fuel v : appends_events (read_swf_events fuel v).
Proof.
  induction fuel as [|fuel IH]; cbn [read_swf_events].
  - intros s a s' H. discriminate.
  - apply ae_bind; [apply ae_read_swf_event|].
    intros []; [exact IH|apply ae_ret].
Qed.

(** X1: whatever the event table holds, a successful [readPlaceActions]
    has changed two things in the tag and nothing else:
    [all_event_flags] is the flag word of the header, and
    [m_event_handlers] is the list it was, with the new events behind
    it; no earlier handler is dropped or moved.  The header comes first
    in the trace. *)
Theorem readPlaceActions_only_adds_events fuel v (s s' : st) :
  readPlaceActions fuel v s = Ok tt s' ->
  exists reserved flags tl l,
    trace s' = trace s ++ OpU16 reserved :: flags_word_op v flags :: tl /\
    this s' =
    set_m_event_handlers (m_event_handlers (this s) ++ l)
      (set_all_event_flags flags (this s)).
Proof.
  rewrite readPlaceActions_split. intros H.
  apply bind_ok in H. destruct H as ([] & s0 & Hh & H).
  apply readPlaceActions_header_ok in Hh.
  destruct Hh as (reserved & c1 & flags & c2 & _ & _ & ->).
  pose proof (ae_read_swf_events _ _ _ _ _ H) as [l El].
  pose proof (etr_read_swf_events _ _ _ _ _ H) as [[tl Et] _].
  cbn [this trace] in *.
  exists reserved, flags, tl, l. split; [|exact El].
  rewrite Et, <- app_assoc. reflexivity.
Qed.

(** *** The end of the table *)

Lemma read_swf_event_terminator v (s : st) c1 :
  (if v >=? 6 then read_u32 (align (inp s)) else read_u16 (align (inp s)))
    = Some (0, c1) ->
  read_swf_event v s =
  Ok Break
    (mkSt (this s) c1 (trace s ++ [OpAlign; flags_word_op v 0]) (logs s)).
Proof.
  intros Hf. unfold read_swf_event.
  unfold in_align at 1. fwd_refl.
  fwd_flags Hf. cbn [Z.eqb]. unfold ret.
  rewrite <- !app_assoc. reflexivity.
Qed.

(** X2: a flag word of zero ends the event table.  After the header and
    [k] entries read in full, a zero flag word makes [readPlaceActions]
    return at once: the flag word is the last thing read (4 bytes from
    version 6 on, 2 before), no length is read behind it, and tag and
    log are what the [k] entries left. *)
Theorem zero_flag_word_ends_the_table fuel k v (sH s0 s : st) c1 :
  readPlaceActions_header v sH = Ok tt s0 ->
  entries_read v k s0 s ->
  (if v >=? 6 then read_u32 (align (inp s)) else read_u16 (align (inp s)))
    = Some (0, c1) ->
  readPlaceActions (k + S fuel) v sH =
  Ok tt
    (mkSt (this s) c1 (trace s ++ [OpAlign; flags_word_op v 0]) (logs s)) /\
  get_position c1 = get_position (inp s) + (if v >=? 6 then 4 else 2).
Proof.
  intros Hh Hk Hf. split.
  - eapply entries_then_break; try eassumption.
    apply read_swf_event_terminator. exact Hf.
  - apply flags_word_advances in Hf.
    unfold get_position, align in *. cbn [position] in *. apply Hf.
Qed.

(** *** A key press entry without a length *)

Lemma has_key_press_nonzero flags :
  has_key_press flags = true -> flags <> 0.
Proof.
  unfold has_key_press. intros H ->. discriminate.
Qed.

(** X3: [event_length--] on a declared length of 0.  For an entry with
    the key-press bit set and a declared length of 0 the key code is
    read and the length wraps to 4294967295.  Unless the tag still has
    that many bytes, the skip of the bytes the action reader did not
    parse fails: both messages are logged, the loop is left, and no
    event is added, not even for the other bits of the flag word. *)
Theorem key_press_without_length_is_dropped v (s : st) flags c1 c2 ch c3
    buf c4 :
  (if v >=? 6 then read_u32 (align (inp s)) else read_u16 (align (inp s)))
    = Some (flags, c1) ->
  has_key_press flags = true ->
  read_u32 c1 = Some (0, c2) ->
  read_u8 c2 = Some (ch, c3) ->
  action_buffer_read c3 = Some (buf, c4) ->
  remaining c4 + Z.of_nat (length buf) < 4294967295 ->
  read_swf_event v s =
  Ok Break
    (mkSt (this s) c4
       (trace s
          ++ [OpAlign; flags_word_op v flags; OpU32 0; OpU8 ch;
              OpActionRead buf;
              OpSkipBytes (4294967295 - Z.of_nat (length buf)) false])
       (logs s
          ++ [SkippingExcessiveBytes 4294967295 (Z.of_nat (length buf));
              BytesSkippingFailed])).
Proof.
  intros Hf Hkp Hl Hk Ha Hlen.
  pose proof (has_key_press_nonzero _ Hkp) as Hnz.
  assert (Hrem : 0 <= remaining c4) by (unfold remaining; lia).
  assert (Hrem2 : 0 <= remaining c2) by (unfold remaining; lia).
  unfold read_swf_event.
  unfold in_align at 1. fwd_refl.
  fwd_flags Hf.
  destruct (flags =? 0) eqn:E0; [apply Z.eqb_eq in E0; contradiction|].
  unfold in_read_u32 at 1. fwd_with Hl.
  unfold in_get_tag_end_position at 1. fwd_refl.
  unfold in_get_position at 1. fwd_refl.
  rewrite remaining_is_distance.
  destruct (remaining c2 <? 0) eqn:E1; [apply Z.ltb_lt in E1; lia|].
  erewrite bind_step.
  2: { apply key_code_step. rewrite Hkp. proj_st. exact Hk. }
  proj_st.
  assert (Eb : event_budget flags 0 = 4294967295)
    by (unfold event_budget; rewrite Hkp; reflexivity).
  rewrite Eb, Hkp.
  unfold action_read at 1. fwd_with Ha.
  destruct (Z.of_nat (length buf) >? 4294967295) eqn:E2;
    [rewrite Z.gtb_ltb in E2; apply Z.ltb_lt in E2; lia|].
  destruct (Z.of_nat (length buf) <? 4294967295) eqn:E3;
    [|apply Z.ltb_ge in E3; lia].
  rewrite bind_assoc. unfold log_swferror at 1. fwd_refl.
  rewrite bind_assoc.
  assert (Hskip : skip_bytes (4294967295 - Z.of_nat (length buf)) c4
                  = (false, c4)).
  { unfold skip_bytes.
    destruct (4294967295 - Z.of_nat (length buf) <=? remaining c4) eqn:E4;
      [apply Z.leb_le in E4; lia|].
    rewrite andb_false_r. reflexivity. }
  unfold in_skip_bytes at 1.
  erewrite bind_step
    by (apply in_call_step; proj_st; rewrite Hskip; reflexivity).
  proj_st. cbn [negb].
  rewrite bind_assoc. unfold log_swferror at 1. fwd_refl.
  fwd_refl. cbn [negb]. unfold ret.
  rewrite <- !app_assoc. reflexivity.
Qed.

(** *** The events of an entry read in full *)

Lemma known_bits_spec flags i :
  In i (known_bits flags) <->
  0 <= i < Z.of_nat total_known_events /\ Z.testbit flags i = true.
Proof.
  unfold known_bits. rewrite filter_In, in_map_iff. split.
  - intros [(n & <- & Hn) Ht]. apply in_seq in Hn. split; [lia|exact Ht].
  - intros [Hi Ht]. split; [|exact Ht].
    exists (Z.to_nat i). split; [lia|]. apply in_seq. lia.
Qed.

Lemma first_owns_events act l : map event (first_owns act l) = l.
Proof.
  destruct l as [|e l]; [reflexivity|]. cbn [first_owns map event].
  rewrite map_map. cbn [event]. rewrite map_id. reflexivity.
Qed.

(** X4: an entry read in full adds one event for each of the bit
    positions 0 to 18 set in its flag word, lowest bit first, of the
    kind [s_code_bits] names for the position; bits from 19 up add no
    event, only the [UnknownEventType] message.  The key code is read
    from the stream, right behind the length, exactly when bit 17 is
    set, and the event for bit 17 is a [KEY_PRESS] with that key code in
    place of the [key::CONTROL] of the table. *)
Theorem entry_adds_one_event_per_known_bit v (s s' : st) :
  read_swf_event v s = Ok Continue s' ->
  exists flags len ch buf,
    let budget := event_budget flags len in
    let readlen := Z.of_nat (length buf) in
    trace s' =
      trace s ++ [OpAlign; flags_word_op v flags; OpU32 len]
        ++ (if has_key_press flags then [OpU8 ch] else [])
        ++ [OpActionRead buf]
        ++ (if readlen <? budget
            then [OpSkipBytes (budget - readlen) true] else []) /\
    (has_key_press flags = false -> ch = u8 key_INVALID) /\
    (has_key_press flags = true <-> In 17 (known_bits flags)) /\
    (exists added,
        m_event_handlers (this s') = m_event_handlers (this s) ++ added /\
        map event added = map (event_of_bit ch) (known_bits flags)) /\
    length (m_event_handlers (this s')) =
      (length (m_event_handlers (this s)) + length (known_bits flags))%nat /\
    (forall i, In i (known_bits flags) <->
               0 <= i < 19 /\ Z.testbit flags i = true) /\
    event_of_bit ch 17 = mkEventId KEY_PRESS ch /\
    (forall i, i <> 17 ->
               event_of_bit ch i = nth (Z.to_nat i) s_code_bits (ev LOAD)) /\
    logs s' =
      logs s
        ++ (if readlen <? budget
            then [SkippingExcessiveBytes budget readlen] else [])
        ++ (if negb (Z.shiftr flags 19 =? 0)
            then [UnknownEventType flags] else []).
Proof.
  intros H. apply read_swf_event_continue_inv in H.
  destruct H as (flags & c1 & len & c2 & ch & c3 & buf & c4 & c5 & _ & _
                 & _ & _ & Hk & _ & H).
  cbv zeta in H. destruct H as (_ & _ & ->).
  exists flags, len, ch, buf. cbv zeta. cbn [this trace logs].
  unfold set_m_event_handlers at 1 2. cbn [m_event_handlers].
  rewrite known_bits_events.
  split; [reflexivity|].
  split; [intros E; rewrite E in Hk; apply Hk|].
  split.
  { rewrite known_bits_spec. unfold has_key_press.
    change (Z.shiftl 1 17) with (2 ^ 17).
    rewrite land_pow2_testbit by lia.
    cbn [total_known_events Z.of_nat Pos.of_succ_nat Pos.succ].
    split; [intros ->; split; [lia|reflexivity]|intros [_ E]; exact E]. }
  split; [eexists; split; [reflexivity|apply first_owns_events]|].
  split; [rewrite length_app, first_owns_length, length_map; reflexivity|].
  split; [intros i; apply known_bits_spec|].
  split; [reflexivity|].
  split; [|reflexivity].
  intros i Hi. unfold event_of_bit.
  destruct (Z.eqb_spec i 17); [contradiction|reflexivity].
Qed.



(** *** Decoding and executing *)

Lemma extended_tag_more_fields d m x (t : PlaceObject2Tag) :
  m_character_id (extended_tag d m x t)
  = (if f_has_char d then f_character_id d else m_character_id t) /\
  m_name (extended_tag d m x t)
  = (if f_has_name d then Some (f_name d) else m_name t) /\
  m_matrix (extended_tag d m x t)
  = (if f_has_matrix d then m else m_matrix t) /\
  m_color_transform (extended_tag d m x t)
  = (if f_has_cxform d then x else m_color_transform t).
Proof.
  unfold extended_tag.
  destruct (f_has_char d), (f_has_matrix d), (f_has_cxform d),
    (f_has_name d); repeat split.
Qed.

(** X6: what [execute] does with an extended tag read into a new tag
    object, for each pair of has-character and move.  Place calls
    [add_display_object] with the character id read, the event handlers
    of the tag, and the matrix and colour transform of the tag whether
    or not they were read (those the tag was built with when their flag
    was clear).  Replace calls [replace_display_object] with the
    character id read, and Move [move_display_object]; both pass matrix
    and colour transform only when they were read, and neither passes
    the event handlers, so the events of a Replace or Move tag are
    never attached.  Remove passes the depth alone, whatever else the
    tag held. *)
Theorem execute_after_extended_read fuel tag v (s s' : st) :
  tag <> PLACEOBJECT ->
  m_has_matrix (this s) = false ->
  m_has_cxform (this s) = false ->
  read fuel tag v s = Ok tt s' ->
  exists d tl,
    let v8 := match tag with PLACEOBJECT3 => v >=? 8 | _ => false end in
    let cx := if f_has_cxform d
              then Some (m_color_transform (this s')) else None in
    let mat := if f_has_matrix d then Some (m_matrix (this s')) else None in
    let ratio := if f_has_ratio d then f_ratio d else noRatioValue in
    let clip := if f_has_clip_bracket d
                then f_clip_depth d + staticDepthOffset
                else noClipDepthValue in
    let depth := f_depth d + staticDepthOffset in
    trace s' = trace s ++ extended_reads v8 d ++ tl /\
    (f_has_matrix d = false -> m_matrix (this s') = m_matrix (this s)) /\
    (f_has_cxform d = false ->
     m_color_transform (this s') = m_color_transform (this s)) /\
    m_name (this s')
    = (if f_has_name d then Some (f_name d) else m_name (this s)) /\
    execute (this s') =
    match f_has_char d, f_flag_move d with
    | true, false =>
        add_display_object (f_character_id d) (m_name (this s'))
          (m_event_handlers (this s')) depth
          (m_color_transform (this s')) (m_matrix (this s')) ratio clip
    | true, true =>
        replace_display_object (f_character_id d) (m_name (this s')) depth
          cx mat ratio clip
    | false, true => move_display_object depth cx mat ratio clip
    | false, false => remove_display_object depth 0
    end.
Proof.
  intros Htag Hm0 Hx0 H.
  apply (proj1 (read_ok fuel tag v s s')) in H.
  assert (H' : readPlaceObject2 fuel v
                 (match tag with PLACEOBJECT3 => false | _ => true end)
                 (mkSt (set_m_tag_type tag (this s)) (inp s) (trace s)
                    (logs s)) = Ok tt s')
    by (destruct tag; [contradiction|exact H|exact H]).
  clear H. apply readPlaceObject2_summary in H'.
  rewrite (v8_of_tag tag v Htag) in H'.
  destruct H' as (d & m & x & tl & _ & _ & Ht & _ & P).
  cbn [this trace] in *.
  apply placement_part_fields in P.
  destruct P as (Pd & Pp & Pm & Px & Pmat & Pcx & Pr & Pc & Pid & Pn).
  cbn [m_depth m_place_type m_has_matrix m_has_cxform m_ratio m_clip_depth
       m_matrix m_color_transform m_character_id m_name
       set_m_place_type] in *.
  destruct (extended_tag_fields d m x (set_m_tag_type tag (this s)))
    as (Ed & Ex & Em & Er & Ec).
  destruct (extended_tag_more_fields d m x (set_m_tag_type tag (this s)))
    as (Eid & En & Emat & Ecx).
  rewrite Ed in Pd. rewrite Ex in Px. rewrite Em in Pm.
  rewrite Er in Pr. rewrite Ec in Pc. rewrite Eid in Pid.
  rewrite En in Pn. rewrite Emat in Pmat. rewrite Ecx in Pcx.
  cbn [m_has_cxform m_has_matrix m_matrix m_color_transform m_name
       m_character_id set_m_tag_type] in *.
  rewrite Hx0, orb_false_r in Px. rewrite Hm0, orb_false_r in Pm.
  exists d, tl. cbv zeta.
  split; [exact Ht|].
  split; [intros E; rewrite E in Pmat; exact Pmat|].
  split; [intros E; rewrite E in Pcx; exact Pcx|].
  split; [exact Pn|].
  unfold execute. rewrite Pp, Pd, Px, Pm, Pr, Pc, Pid.
  destruct (f_has_char d), (f_flag_move d); reflexivity.
Qed.

(** X7: the legacy decoder writes the character id, the depth, the
    matrix and possibly the colour transform, and nothing else: the
    PlaceType, ratio, clip depth, name, event handlers and the marks
    has-matrix and has-cxform stay as the tag was built; neither
    sentinel is written and has-matrix is not set by the matrix that
    is always read.  Read into a tag built as a Place, the tag
    executes as [add_display_object] with the character id and depth
    read and the ratio and clip depth the tag was built with. *)
Theorem legacy_read_leaves_the_rest fuel v (s s' : st) :
  read fuel PLACEOBJECT v s = Ok tt s' ->
  exists cid raw tl,
    trace s' = trace s ++ OpU16 cid :: OpU16 raw :: OpMatrixRead :: tl /\
    (tl = [] \/ tl = [OpCxformReadRGB]) /\
    this s' =
      set_m_color_transform (m_color_transform (this s'))
        (set_m_matrix (m_matrix (this s'))
           (set_m_depth (raw + staticDepthOffset)
              (set_m_character_id cid
                 (set_m_tag_type PLACEOBJECT (this s))))) /\
    (tl = [] -> m_color_transform (this s') = m_color_transform (this s)) /\
    (m_place_type (this s) = PLACE ->
     execute (this s') =
     add_display_object cid (m_name (this s)) (m_event_handlers (this s))
       (raw + staticDepthOffset) (m_color_transform (this s'))
       (m_matrix (this s')) (m_ratio (this s)) (m_clip_depth (this s))).
Proof.
  intros H. apply legacy_reads in H.
  destruct H as (cid & c1 & raw & c2 & m & c3 & _ & _ & _ & H).
  cbv zeta in H. exists cid, raw.
  destruct (get_position c3 <? get_tag_end_position c3).
  - destruct H as (x & c4 & _ & ->). exists [OpCxformReadRGB].
    cbn [this trace]. rewrite <- app_assoc.
    split; [reflexivity|]. split; [auto|]. split; [reflexivity|].
    split; [discriminate|].
    intros Hp. unfold execute. cbn [m_place_type set_m_color_transform
      set_m_matrix set_m_depth set_m_character_id set_m_tag_type].
    rewrite Hp. reflexivity.
  - subst s'. exists []. cbn [this trace].
    split; [reflexivity|]. split; [auto|]. split; [reflexivity|].
    split; [reflexivity|].
    intros Hp. unfold execute. cbn [m_place_type set_m_matrix set_m_depth
      set_m_character_id set_m_tag_type].
    rewrite Hp. reflexivity.
Qed.

(** *** Tags that are too short *)

(** X8: the fields every tag must have.  A legacy tag starts with four
    bytes, character id and depth; an extended tag with three, the flag
    byte and the depth, and with four when the second flag byte of
    PlaceObject3 is read.  On a tag with fewer bytes [read] fails with
    [TruncatedInput], whatever the bytes are. *)
Theorem read_needs_the_mandatory_fields fuel tag v (s : st) :
  (length (unread (inp s)) <
   match tag with
   | PLACEOBJECT => 4
   | PLACEOBJECT2 => 3
   | PLACEOBJECT3 => if v >=? 8 then 4 else 3
   end)%nat ->
  read fuel tag v s = Failed TruncatedInput.
Proof.
  destruct s as [t [p u bb] tr lg]. cbn [inp unread].
  unfold read, readPlaceObject2, readPlaceObject.
  destruct tag; [| |destruct (v >=? 8)];
    destruct u as [|x0 [|x1 [|x2 [|x3 r]]]]; cbn [length]; intros H;
    try lia; reflexivity.
Qed.

(** *** The loop ends *)

Lemma ot_modify_this f : only_truncates (modify_this f).
Proof. intros s e H. discriminate. Qed.

Lemma ot_readPlaceActions_header v :
  only_truncates (readPlaceActions_header v).
Proof.
  unfold readPlaceActions_header. unfold_reads.
  repeat first
    [ solve [auto using ot_modify_this with ot]
    | apply ot_if
    | apply ot_bind; [|intros ?] ].
Qed.

Lemma entry_consumes v (s s' : st) :
  (forall c buf c',
      action_buffer_read c = Some (buf, c') ->
      (length (unread c') <= length (unread c))%nat) ->
  read_swf_event v s = Ok Continue s' ->
  (length (unread (inp s')) + (if v >=? 6 then 8 else 6)
   <= length (unread (inp s)))%nat.
Proof.
  intros Hrd E. apply read_swf_event_continue_inv in E.
  destruct E as (flags & c1 & len & c2 & ch & c3 & buf & c4 & c5 & Hf & _
                 & Hl & _ & Hk & Ha & Hs).
  cbv zeta in Hs. destruct Hs as (_ & Hskip & ->). cbn [inp].
  apply flags_word_advances in Hf. apply read_u32_advances in Hl.
  apply Hrd in Ha.
  unfold get_position, get_tag_end_position, remaining, align in *.
  cbn [position unread] in *.
  assert (length (unread c3) <= length (unread c2))%nat.
  { destruct (has_key_press flags).
    - apply read_u8_shrinks in Hk. lia.
    - destruct Hk as [_ ->]. lia. }
  assert (length (unread c5) <= length (unread c4))%nat.
  { destruct (_ <? _).
    - apply skip_bytes_shrinks in Hskip. exact Hskip.
    - subst c5. lia. }
  destruct (v >=? 6); lia.
Qed.

(** X9: the loop over the entries ends on every tag.  With an action
    reader that never moves the stream backwards, each entry read in
    full takes at least 6 bytes of the tag (8 from version 6 on: flag
    word and length), so a tag holds at most a sixth of its bytes in
    entries, and [readPlaceActions] run with more fuel than the tag has
    unread bytes never stops for lack of fuel. *)
Theorem event_loop_ends_within_the_tag :
  (forall c buf c',
      action_buffer_read c = Some (buf, c') ->
      (length (unread c') <= length (unread c))%nat) ->
  (forall v k (s s' : st),
      entries_read v k s s' ->
      (length (unread (inp s')) + k * (if v >=? 6 then 8 else 6)
       <= length (unread (inp s)))%nat) /\
  (forall fuel v (s : st),
      (length (unread (inp s)) < fuel)%nat ->
      readPlaceActions fuel v s <> Failed OutOfFuel).
Proof.
  intros Hrd. split.
  - intros v k s s' H.
    induction H as [s|k s s1 s' Hstep _ IH]; [lia|].
    pose proof (entry_consumes v s s1 Hrd Hstep). cbn [Nat.mul]. lia.
  - intros fuel v s Hlen. rewrite readPlaceActions_split. unfold bind.
    destruct (readPlaceActions_header v s) as [[] s0|e] eqn:E.
    + apply read_swf_events_enough_fuel; [exact Hrd|].
      apply readPlaceActions_header_ok in E.
      destruct E as (reserved & c1 & flags & c2 & Hr & Hf & ->).
      cbn [inp]. apply read_u16_advances in Hr.
      apply flags_word_shrinks in Hf.
      unfold get_position, get_tag_end_position, remaining in Hr. lia.
    + intros H. injection H as ->.
      apply ot_readPlaceActions_header in E. discriminate.
Qed.

Lemma read_u32_range_nonneg c x c' :
  read_u32 c = Some (x, c') -> 0 <= x < 2 ^ 32.
Proof.
  unfold read_u32.
  destruct (unread c) as [|x0 [|x1 [|x2 [|x3 r]]]]; try discriminate.
  intros H.
  assert (E : x = Z.lor (Z.lor (byte_val x0) (Z.shiftl (byte_val x1) 8))
                    (Z.lor (Z.shiftl (byte_val x2) 16)
                       (Z.shiftl (byte_val x3) 24)))
    by congruence.
  subst x. clear H.
  pose proof (byte_val_range x0). pose proof (byte_val_range x1).
  pose proof (byte_val_range x2). pose proof (byte_val_range x3).
  repeat apply (lor_range 32); try lia;
    rewrite Z.shiftl_mul_pow2 by lia; lia.
Qed.

(** *** Where an entry ends *)

Lemma read_u8_advances c x c' :
  read_u8 c = Some (x, c') -> get_position c' = get_position c + 1.
Proof.
  unfold read_u8. destruct (unread c); [discriminate|].
  intros H. injection H as _ <-. reflexivity.
Qed.

Lemma skip_bytes_advances n c c' :
  skip_bytes n c = (true, c') -> get_position c' = get_position c + n.
Proof.
  unfold skip_bytes. destruct ((0 <=? n) && (n <=? remaining c));
    intros H; [|discriminate].
  injection H as <-. reflexivity.
Qed.

(** X10: the declared length frames the entry.  With an action reader
    that takes from the stream exactly the bytes it returns, an entry
    read in full leaves the stream exactly the declared number of bytes
    behind its length word, also when the action reader stopped early:
    the bytes it left are skipped, and the key code counts as one of
    the declared bytes.  (A key press entry with a declared length of 0
    is the X3 case and is left out.) *)
Theorem entry_ends_at_its_declared_length v (s s' : st) :
  (forall c buf c',
      action_buffer_read c = Some (buf, c') ->
      get_position c' = get_position c + Z.of_nat (length buf)) ->
  read_swf_event v s = Ok Continue s' ->
  exists flags len,
    (exists tl,
        trace s' =
          trace s ++ OpAlign :: flags_word_op v flags :: OpU32 len :: tl) /\
    (has_key_press flags = true -> 0 < len ->
     get_position (inp s')
     = get_position (inp s) + (if v >=? 6 then 8 else 6) + len) /\
    (has_key_press flags = false ->
     get_position (inp s')
     = get_position (inp s) + (if v >=? 6 then 8 else 6) + len).
Proof.
  intros Hrd E. apply read_swf_event_continue_inv in E.
  destruct E as (flags & c1 & len & c2 & ch & c3 & buf & c4 & c5 & Hf & _
                 & Hl & Hle & Hk & Ha & Hs).
  cbv zeta in Hs. destruct Hs as (Hb & Hskip & ->). cbn [inp trace].
  exists flags, len. split; [eexists; reflexivity|].
  pose proof (read_u32_range_nonneg c1 len c2 Hl) as Hlen.
  apply flags_word_advances in Hf. apply read_u32_advances in Hl.
  apply Hrd in Ha.
  assert (Hend : get_position c5
                 = get_position c4
                   + (event_budget flags len - Z.of_nat (length buf))).
  { destruct (_ <? _) eqn:E.
    - apply skip_bytes_advances in Hskip. exact Hskip.
    - subst c5. apply Z.ltb_ge in E. lia. }
  unfold get_position, align in *. cbn [position] in *.
  unfold event_budget, u32 in *.
  split.
  - intros Hkp Hpos. rewrite Hkp in *. apply read_u8_advances in Hk.
    unfold get_position in Hk.
    rewrite Z.mod_small in Hend by lia.
    destruct (v >=? 6); lia.
  - intros Hkp. rewrite Hkp in *. destruct Hk as [_ ->].
    destruct (v >=? 6); lia.
Qed.

(** *** The first byte of an extended tag *)

Lemma Some_pair_inj {A B} (a a' : A) (b b' : B) :
  Some (a, b) = Some (a', b') -> a = a' /\ b = b'.
Proof. intros H. split; congruence. Qed.

Lemma low_bits_place_type x :
  place_type_table (Z.testbit (byte_val x) 1) (Z.testbit (byte_val x) 0)
  = match byte_val x mod 4 with
    | 0 => REMOVE
    | 1 => MOVE
    | 2 => PLACE
    | _ => REPLACE
    end.
Proof. destruct x; reflexivity. Qed.

(** X11: the PlaceType of an extended tag is in the two lowest bits of
    its first byte, has-character above move: 0 is Remove, 1 Move, 2
    Place and 3 Replace; no other byte of the tag has a say. *)
Theorem place_type_is_in_the_low_bits fuel v place_2 (s s' : st) x r :
  unread (inp s) = x :: r ->
  readPlaceObject2 fuel v place_2 s = Ok tt s' ->
  m_place_type (this s')
  = match byte_val x mod 4 with
    | 0 => REMOVE
    | 1 => MOVE
    | 2 => PLACE
    | _ => REPLACE
    end.
Proof.
  intros Hx H. unfold readPlaceObject2 in H.
  next H u0 s0 H0. unfold in_align in H0. apply in_call_ok in H0.
  destruct H0 as (c0 & E0 & ->). proj_in H.
  apply Some_pair_inj in E0. destruct E0 as [_ <-].
  unfold in_read_bit in H.
  next H ha s1 H1. apply in_call_ok in H1. destruct H1 as (c1 & E1 & ->).
  proj_in H.
  unfold read_bit in E1. cbn [inp align bitbuf unread] in E1.
  rewrite Hx in E1. apply Some_pair_inj in E1. destruct E1 as [<- <-].
  next H hc s2 H2. apply in_call_ok in H2. destruct H2 as (c2 & E2 & ->).
  proj_in H. cbn [inp] in E2. apply Some_pair_inj in E2.
  destruct E2 as [<- <-].
  next H hn s3 H3. apply in_call_ok in H3. destruct H3 as (c3 & E3 & ->).
  proj_in H. cbn [inp] in E3. apply Some_pair_inj in E3.
  destruct E3 as [<- <-].
  next H hr s4 H4. apply in_call_ok in H4. destruct H4 as (c4 & E4 & ->).
  proj_in H. cbn [inp] in E4. apply Some_pair_inj in E4.
  destruct E4 as [<- <-].
  next H hx s5 H5. apply in_call_ok in H5. destruct H5 as (c5 & E5 & ->).
  proj_in H. cbn [inp] in E5. apply Some_pair_inj in E5.
  destruct E5 as [<- <-].
  next H hm s6 H6. apply in_call_ok in H6. destruct H6 as (c6 & E6 & ->).
  proj_in H. cbn [inp] in E6. apply Some_pair_inj in E6.
  destruct E6 as [<- <-].
  next H hch s7 H7. apply in_call_ok in H7. destruct H7 as (c7 & E7 & ->).
  proj_in H. cbn [inp] in E7. apply Some_pair_inj in E7.
  destruct E7 as [<- <-].
  next H mv s8 H8. apply in_call_ok in H8. destruct H8 as (c8 & E8 & ->).
  proj_in H. cbn [inp] in E8. apply Some_pair_inj in E8.
  destruct E8 as [<- <-].
  next H v8 s9 H9. destruct v8 as [[hbc hbm] hf].
  do 12 (apply bind_ok in H; destruct H as (? & ? & _ & H)).
  apply modify_this_ok in H. subst s'. cbn [this].
  rewrite derive_place_type_table. cbn [m_place_type set_m_place_type].
  apply low_bits_place_type.
Qed.

End Properties.

(** ** The statements on concrete tags *)

#[local] Existing Instance Sample.collaborators.

Lemma place_type_of_move_with_matrix :
  m_place_type (this Sample.move_end) = MOVE /\
  exists d tl,
    trace Sample.move_end
    = trace Sample.move_start ++ extended_reads false d ++ tl /\
    m_place_type (this Sample.move_end)
    = place_type_table (f_has_char d) (f_flag_move d).
Proof.
  split; [reflexivity|].
  destruct (place_type_follows_the_table 1 7 true
              Sample.move_start Sample.move_end)
    as (d & tl & Ht & Hp & _).
  - reflexivity.
  - exists d, tl. split; assumption.
Defined.

Lemma key_press_entry_within_budget :
  read_swf_event 7 Sample.key_press_start = Ok Continue Sample.key_press_end /\
  exists flags len ch buf,
    Z.of_nat (length buf) <= event_budget flags len /\
    trace Sample.key_press_end =
      trace Sample.key_press_start
        ++ [OpAlign; flags_word_op 7 flags; OpU32 len]
        ++ (if has_key_press flags then [OpU8 ch] else [])
        ++ [OpActionRead buf]
        ++ (if Z.of_nat (length buf) <? event_budget flags len
            then [OpSkipBytes (event_budget flags len
                               - Z.of_nat (length buf)) true]
            else []).
Proof.
  assert (H : read_swf_event 7 Sample.key_press_start
              = Ok Continue Sample.key_press_end) by reflexivity.
  split; [exact H|].
  destruct (entry_captures_at_most_the_declared_length 7
              Sample.key_press_start Sample.key_press_end H)
    as (flags & len & ch & buf & Hle & Ht & _).
  exists flags, len, ch, buf. split; assumption.
Defined.

(** C2 as it is written fails on this entry: bit 17 is set and 5 bytes
    are declared; the key code is read, the action reader captures 2
    bytes, 2 more are skipped, and the event holds the 2 captured bytes,
    not 4. *)
Lemma key_press_entry_captures_two_bytes_of_four :
  read_swf_event 7 Sample.key_press_start = Ok Continue Sample.key_press_end /\
  trace Sample.key_press_end =
    [OpAlign; OpU32 131072; OpU32 5; OpU8 65; OpActionRead [x07; x00];
     OpSkipBytes 2 true] /\
  m_event_handlers (this Sample.key_press_end) =
    [mkSwfEvent (mkEventId KEY_PRESS 65) (Some [x07; x00])] /\
  Z.of_nat (length [x07; x00]) <> 5 - 1.
Proof.
  repeat split; try reflexivity. discriminate.
Qed.

Lemma place2_tag_with_events_reads_in_order :
  read 2 PLACEOBJECT2 7 Sample.events_start = Ok tt Sample.events_end /\
  trace Sample.events_end =
    [OpAlign; OpBit true; OpBit false; OpBit false; OpBit false;
     OpBit false; OpBit false; OpBit true; OpBit false;
     OpU16 5; OpU16 2;
     OpU16 0; OpU32 48;
     OpAlign; OpU32 48; OpU32 3; OpActionRead [x07; x00];
     OpSkipBytes 1 true;
     OpAlign; OpU32 0] /\
  exists d sa,
    f_has_actions d = true /\
    trace Sample.events_fields
    = trace Sample.events_start ++ extended_reads false d /\
    readPlaceActions 2 7 Sample.events_fields = Ok tt sa /\
    inp Sample.events_end = inp sa /\
    trace Sample.events_end = trace sa /\
    logs Sample.events_end = logs sa.
Proof.
  assert (H : read 2 PLACEOBJECT2 7 Sample.events_start
              = Ok tt Sample.events_end) by reflexivity.
  split; [exact H|]. split; [reflexivity|].
  assert (Hne : PLACEOBJECT2 <> PLACEOBJECT) by discriminate.
  destruct (proj1 (extended_tag_reads_in_order 2 PLACEOBJECT2 7
                     Sample.events_start Sample.events_end Hne) H)
    as (d & m & x & sf & sa & tl & Hf & _ & Ht & _ & _ & Ha & _ & _ & He).
  cbv zeta in Hf.
  assert (Hf' : Ok (true, true, false) Sample.events_fields
                = Ok (f_has_actions d, f_has_char d, f_flag_move d) sf)
    by exact Hf.
  apply Ok_inj in Hf'. destruct Hf' as [Hflags <-].
  assert (Hact : f_has_actions d = true) by congruence.
  rewrite Hact in Ha.
  exists d, sa. split; [exact Hact|]. split; [exact Ht|].
  split; [exact Ha|].
  rewrite He. cbn [inp trace logs]. auto.
Defined.

Lemma past_end_entry_stops_the_table :
  exists s',
    readPlaceActions 2 7 Sample.past_end_start = Ok tt s' /\
    m_event_handlers (this s')
    = m_event_handlers (this Sample.past_end_entry) /\
    logs s' = [SkippingExcessiveBytes 3 2; EventLengthPastTagEnd 255 2].
Proof.
  edestruct (event_length_past_tag_end_stops_the_table 0 1 7 true false
               Sample.past_end_start Sample.past_end_header
               Sample.past_end_entry)
    as (H1 & _).
  - reflexivity.
  - apply entries_more with (s1 := Sample.past_end_entry);
      [reflexivity|apply entries_none].
  - reflexivity.
  - discriminate.
  - reflexivity.
  - reflexivity.
  - eexists. split; [exact H1|]. split; reflexivity.
Defined.

Lemma move_tag_passes_present_fields_only :
  exists d,
    f_has_char d = false /\ f_flag_move d = true /\
    execute (this Sample.move_read_end) =
      move_display_object (f_depth d + staticDepthOffset)
        (if f_has_cxform d
         then Some (m_color_transform (this Sample.move_read_end))
         else None)
        (if f_has_matrix d
         then Some (m_matrix (this Sample.move_read_end)) else None)
        (if f_has_ratio d then f_ratio d else noRatioValue)
        (if f_has_clip_bracket d
         then f_clip_depth d + staticDepthOffset
         else noClipDepthValue).
Proof.
  destruct (move_updates_only_present_fields 1 PLACEOBJECT2 7
              Sample.move_start Sample.move_read_end)
    as (d & tl & _ & Hc & Hm & He & _).
  - discriminate.
  - reflexivity.
  - reflexivity.
  - reflexivity.
  - reflexivity.
  - exists d. repeat split; assumption.
Defined.

Lemma legacy_tag_depth_is_registered :
  loader 1 PLACEOBJECT 7 Sample.legacy_start
  = Ok Sample.legacy_calls Sample.legacy_end /\
  exists sr raw,
    0 <= raw < 2 ^ 16 /\
    m_depth (this sr) = raw + staticDepthOffset /\
    (if raw + staticDepthOffset <? 0
     then
       Sample.legacy_calls =
         [add_execute_tag (this sr);
          addTimelineDepth (raw + staticDepthOffset)] /\
       Sample.legacy_end = sr
     else
       Sample.legacy_calls = [add_execute_tag (this sr)] /\
       Sample.legacy_end =
         mkSt (this sr) (inp sr) (trace sr)
           (logs sr ++ [DepthOutOfStaticZone (raw + staticDepthOffset)])).
Proof.
  assert (H : loader 1 PLACEOBJECT 7 Sample.legacy_start
              = Ok Sample.legacy_calls Sample.legacy_end) by reflexivity.
  split; [exact H|].
  destruct (loader_registers_timeline_depths 1 PLACEOBJECT 7
              Sample.legacy_start Sample.legacy_end Sample.legacy_calls H)
    as (sr & raw & tl & _ & _ & Hraw & Hd & _ & _ & Hc).
  exists sr, raw. repeat split; try assumption; apply Hraw.
Defined.

Lemma overrun_entry_keeps_first_entry :
  exists s',
    readPlaceActions 2 7 Sample.overrun_start = Ok tt s' /\
    m_event_handlers (this s')
    = m_event_handlers (this Sample.overrun_entry) /\
    logs s' = [SkippingExcessiveBytes 3 2; ReadPastEventLength 1 2].
Proof.
  edestruct (overrun_keeps_the_earlier_events 0 1 7 true false
               Sample.overrun_start Sample.overrun_header
               Sample.overrun_entry)
    as (s' & H1 & _ & H3 & _ & H5).
  - reflexivity.
  - apply entries_more with (s1 := Sample.overrun_entry);
      [reflexivity|apply entries_none].
  - reflexivity.
  - discriminate.
  - reflexivity.
  - discriminate.
  - lazy. split; reflexivity.
  - reflexivity.
  - reflexivity.
  - exists s'. split; [exact H1|]. split; [exact H3|exact H5].
Defined.

(** The first entry of the sample tables is declared for mouse-down and
    mouse-up: the second event comes out without an action buffer. *)
Lemma mouse_up_event_has_no_buffer :
  read_swf_event 7 Sample.past_end_header = Ok Continue Sample.past_end_entry /\
  m_event_handlers (this Sample.past_end_entry) =
    [mkSwfEvent (mkEventId MOUSE_DOWN 0) (Some [x07; x00]);
     mkSwfEvent (mkEventId MOUSE_UP 0) None].
Proof. split; reflexivity. Qed.

(** ** The further properties on concrete tags *)

(** The stand-in action reader returns the bytes it takes from the
    stream, and takes them from the front. *)
Lemma sample_take_bytes n c l c' :
  Sample.take_bytes n c = Some (l, c') ->
  unread c = l ++ unread c' /\
  position c' = position c + Z.of_nat (length l).
Proof.
  unfold Sample.take_bytes.
  destruct (n <=? length (unread c))%nat eqn:E; [|discriminate].
  apply Nat.leb_le in E. intros H.
  apply Some_pair_inj in H. destruct H as [<- <-]. cbn [unread position].
  rewrite firstn_skipn, length_firstn, Nat.min_l by exact E. auto.
Qed.

Lemma sample_action_records fuel : forall acc c r c',
  Sample.action_records fuel acc c = Some (r, c') ->
  exists taken,
    r = acc ++ taken /\
    unread c = taken ++ unread c' /\
    position c' = position c + Z.of_nat (length taken).
Proof.
  induction fuel as [|fuel IH]; intros acc c r c' H; [discriminate|].
  cbn [Sample.action_records] in H.
  destruct (unread c) as [|x rest] eqn:Eu; [discriminate|].
  destruct (Z.testbit (byte_val x) 7).
  - unfold Sample.obind in H.
    destruct (read_u16 _) as [[len cx]|]; [|discriminate].
    destruct (Sample.take_bytes _ _) as [[body c2]|] eqn:Et;
      [|discriminate].
    apply sample_take_bytes in Et. cbn [unread position] in Et.
    destruct Et as [Er Ep].
    apply IH in H. destruct H as (taken & -> & Ht & Hp).
    exists (x :: body ++ taken).
    rewrite <- app_assoc. split; [reflexivity|].
    split; [rewrite Er, Ht; cbn [app]; rewrite app_assoc; reflexivity|].
    rewrite Hp, Ep. cbn [length]. rewrite length_app. lia.
  - destruct (Byte.eqb x x00).
    + apply Some_pair_inj in H. destruct H as [<- <-].
      exists [x]. cbn [unread position length]. auto.
    + apply IH in H. cbn [unread position] in H.
      destruct H as (taken & -> & Ht & Hp).
      exists (x :: taken). rewrite <- app_assoc.
      split; [reflexivity|]. split; [rewrite Ht; reflexivity|].
      rewrite Hp. cbn [length]. lia.
Qed.

Lemma sample_reader_moves_forward c buf c' :
  action_buffer_read c = Some (buf, c') ->
  (length (unread c') <= length (unread c))%nat.
Proof.
  intros H.
  change (Sample.action_records (length (unread c)) [] (align c)
          = Some (buf, c')) in H.
  apply sample_action_records in H.
  destruct H as (taken & _ & Hu & _). cbn [align unread] in Hu.
  rewrite Hu, length_app. lia.
Qed.

Lemma sample_reader_takes_what_it_returns c buf c' :
  action_buffer_read c = Some (buf, c') ->
  get_position c' = get_position c + Z.of_nat (length buf).
Proof.
  intros H.
  change (Sample.action_records (length (unread c)) [] (align c)
          = Some (buf, c')) in H.
  apply sample_action_records in H.
  destruct H as (taken & -> & _ & Hp). exact Hp.
Qed.

Lemma complete_table_only_adds_events :
  exists reserved flags tl l,
    trace Sample.complete_end =
      trace Sample.complete_start
        ++ OpU16 reserved :: flags_word_op 7 flags :: tl /\
    this Sample.complete_end =
      set_m_event_handlers
        (m_event_handlers (this Sample.complete_start) ++ l)
        (set_all_event_flags flags (this Sample.complete_start)).
Proof.
  apply (readPlaceActions_only_adds_events 2 7). reflexivity.
Defined.

Lemma complete_table_ends_at_zero_flag_word :
  readPlaceActions 2 7 Sample.complete_start = Ok tt Sample.complete_end /\
  m_event_handlers (this Sample.complete_end)
  = m_event_handlers (this Sample.complete_entry).
Proof.
  edestruct (zero_flag_word_ends_the_table 0 1 7 Sample.complete_start
               Sample.complete_header Sample.complete_entry)
    as [H1 _].
  - reflexivity.
  - apply entries_more with (s1 := Sample.complete_entry);
      [reflexivity|apply entries_none].
  - reflexivity.
  - split; [|reflexivity].
    etransitivity; [exact H1|reflexivity].
Defined.

Lemma key_press_entry_without_length :
  exists s',
    read_swf_event 7 Sample.no_length_start = Ok Break s' /\
    m_event_handlers (this s') = [] /\
    logs s' = [SkippingExcessiveBytes 4294967295 2; BytesSkippingFailed].
Proof.
  eexists. split.
  - eapply key_press_without_length_is_dropped.
    + reflexivity.
    + reflexivity.
    + reflexivity.
    + reflexivity.
    + reflexivity.
    + reflexivity.
  - split; reflexivity.
Defined.

Lemma key_press_entry_adds_one_event :
  m_event_handlers (this Sample.key_press_end) =
    [mkSwfEvent (mkEventId KEY_PRESS 65) (Some [x07; x00])] /\
  exists flags ch added,
    (has_key_press flags = true <-> In 17 (known_bits flags)) /\
    m_event_handlers (this Sample.key_press_end) =
      m_event_handlers (this Sample.key_press_start) ++ added /\
    map event added = map (event_of_bit ch) (known_bits flags).
Proof.
  split; [reflexivity|].
  destruct (entry_adds_one_event_per_known_bit 7 Sample.key_press_start
              Sample.key_press_end)
    as (flags & len & ch & buf & _ & _ & Hk & (added & Hh & He) & _).
  - reflexivity.
  - exists flags, ch, added. repeat split; try assumption; apply Hk.
Defined.


Lemma place3_tag_executes_as_place :
  execute (this Sample.place3_end) =
    add_display_object 2 (Some [x61; x62]) [] (3 + staticDepthOffset)
      [] [0; 0] 9 (4 + staticDepthOffset) /\
  exists d,
    f_has_char d = true /\ f_flag_move d = false /\
    execute (this Sample.place3_end) =
      add_display_object (f_character_id d) (m_name (this Sample.place3_end))
        (m_event_handlers (this Sample.place3_end))
        (f_depth d + staticDepthOffset)
        (m_color_transform (this Sample.place3_end))
        (m_matrix (this Sample.place3_end))
        (if f_has_ratio d then f_ratio d else noRatioValue)
        (if f_has_clip_bracket d
         then f_clip_depth d + staticDepthOffset
         else noClipDepthValue).
Proof.
  split; [reflexivity|].
  destruct (execute_after_extended_read 1 PLACEOBJECT3 8
              Sample.place3_start Sample.place3_end)
    as (d & tl & _ & _ & _ & _ & He).
  - discriminate.
  - reflexivity.
  - reflexivity.
  - reflexivity.
  - exists d.
    destruct (f_has_char d), (f_flag_move d); try discriminate He.
    repeat split. exact He.
Defined.

Lemma legacy_tag_executes_as_place :
  exists cid raw,
    execute (this Sample.legacy_end) =
    add_display_object cid (m_name (this Sample.legacy_start))
      (m_event_handlers (this Sample.legacy_start))
      (raw + staticDepthOffset) (m_color_transform (this Sample.legacy_end))
      (m_matrix (this Sample.legacy_end)) (m_ratio (this Sample.legacy_start))
      (m_clip_depth (this Sample.legacy_start)).
Proof.
  destruct (legacy_read_leaves_the_rest 1 7 Sample.legacy_start
              Sample.legacy_end)
    as (cid & raw & tl & _ & _ & _ & _ & He).
  - reflexivity.
  - exists cid, raw. apply He. reflexivity.
Defined.

Lemma two_byte_tag_is_truncated :
  read 1 PLACEOBJECT2 7 (Sample.start [x05; x05]) = Failed TruncatedInput.
Proof.
  apply read_needs_the_mandatory_fields. cbn. lia.
Defined.

Lemma complete_table_needs_little_fuel :
  readPlaceActions 22 7 Sample.complete_start <> Failed OutOfFuel.
Proof.
  apply (proj2 (event_loop_ends_within_the_tag sample_reader_moves_forward)).
  cbn. lia.
Defined.

Lemma key_press_entry_ends_at_its_declared_length :
  get_position (inp Sample.key_press_end) = 13 /\
  exists flags len,
    (exists tl,
        trace Sample.key_press_end =
          trace Sample.key_press_start
            ++ OpAlign :: flags_word_op 7 flags :: OpU32 len :: tl) /\
    (has_key_press flags = true -> 0 < len ->
     get_position (inp Sample.key_press_end)
     = get_position (inp Sample.key_press_start) + 8 + len).
Proof.
  split; [reflexivity|].
  destruct (entry_ends_at_its_declared_length 7 Sample.key_press_start
              Sample.key_press_end sample_reader_takes_what_it_returns)
    as (flags & len & Ht & Hk & _).
  - reflexivity.
  - exists flags, len. split; assumption.
Defined.

Lemma move_tag_first_byte :
  m_place_type (this Sample.move_end) = MOVE.
Proof.
  exact (place_type_is_in_the_low_bits 1 7 true Sample.move_start
           Sample.move_end x05 [x05; x00; x00] eq_refl eq_refl).
Defined.
